(** * ProtocolManager: the ytmd-app resource router and the ytmd deep-link dispatcher

    A shallow embedding of [src/main/services/protocolmanager/index.ts]:
    - [handleYTMDProtocol]     (the deep-link dispatcher, lines 56-85),
    - [handleYTMDAppProtocol]  (the internal-scheme router, lines 87-137),
    - [isSafePath]             (the path sandbox guard, lines 139-144).

    JavaScript strings are lists of characters; the code only compares
    characters with each other and with ['/'], ['\'], ['.'] and [':'], so
    8-bit characters stand for UTF-16 code units.  The non-string values
    the code handles ([undefined], booleans) are constructors of [value],
    exceptions are the [Throw] case of [result], and the calls made on the
    collaborators (the logger, the view manager, [net.fetch]) are recorded
    as events, in order.

    The router and the guard call [path.resolve], [path.relative] and
    [path.isAbsolute] of Node.js.  Module [Path] transliterates the POSIX
    implementation of these functions (Node's [lib/path.js]), loops and
    index arithmetic included; the development therefore describes the
    program on a POSIX platform. *)

From Stdlib Require Import List Ascii String ZArith Lia Bool Arith.
Import ListNotations.

Open Scope string_scope.
Open Scope list_scope.
Open Scope Z_scope.

(** ** JavaScript strings and values *)

Definition jstr := list ascii.

Coercion list_ascii_of_string : string >-> list.

(** The values the code handles: [undefined], strings and booleans. *)
Inductive value : Type :=
| JUndefined
| JString (s : jstr)
| JBool (b : bool).

(** The [TypeError] with code [ERR_INVALID_ARG_TYPE] that Node's
    [validateString] raises on a non-string; [arg] names the offending
    parameter ([paths[i]], [from] or [to]). *)
Inductive argName : Type :=
| ArgPaths (i : nat)
| ArgFrom
| ArgTo.

Inductive jsError : Type :=
| ERR_INVALID_ARG_TYPE (arg : argName).

Inductive result (A : Type) : Type :=
| Ok (a : A)
| Throw (e : jsError).
Arguments Ok {A} a.
Arguments Throw {A} e.

Definition bind {A B : Type} (m : result A) (k : A -> result B) : result B :=
  match m with
  | Ok a => k a
  | Throw e => Throw e
  end.

Notation "x <- m ;; k" := (bind m (fun x => k))
  (at level 61, m at next level, right associativity).

Module JS.

Definition len (s : jstr) : Z := Z.of_nat (List.length s).

(** [s.charCodeAt(i)]; [None] stands for [NaN] (index out of range). *)
Definition charCodeAt (s : jstr) (i : Z) : option ascii :=
  if i <? 0 then None else nth_error s (Z.to_nat i).

Definition code_eqb (a b : option ascii) : bool :=
  match a, b with
  | Some x, Some y => Ascii.eqb x y
  | _, _ => false
  end.

Definition is_code (a : option ascii) (c : ascii) : bool :=
  code_eqb a (Some c).

(** [s.slice(i)] for [0 <= i]. *)
Definition sliceFrom (s : jstr) (i : Z) : jstr := skipn (Z.to_nat i) s.

(** [s.slice(0, j)] for [0 <= j]. *)
Definition sliceTo (s : jstr) (j : Z) : jstr := firstn (Z.to_nat j) s.

Fixpoint lastIndexOf_from (c : ascii) (s : jstr) (i acc : Z) : Z :=
  match s with
  | [] => acc
  | x :: s' => lastIndexOf_from c s' (i + 1) (if Ascii.eqb x c then i else acc)
  end.

(** [s.lastIndexOf(c)] for a one-character [c]; [-1] when absent. *)
Definition lastIndexOf (s : jstr) (c : ascii) : Z := lastIndexOf_from c s 0 (-1).

Fixpoint str_eqb (a b : jstr) : bool :=
  match a, b with
  | [], [] => true
  | x :: a', y :: b' => Ascii.eqb x y && str_eqb a' b'
  | _, _ => false
  end.

(** [s.startsWith(p)]. *)
Fixpoint startsWith (s p : jstr) : bool :=
  match p, s with
  | [], _ => true
  | y :: p', x :: s' => Ascii.eqb x y && startsWith s' p'
  | _ :: _, [] => false
  end.

(** [s.split(sep)] for a non-empty separator: the pieces between the
    successive non-overlapping occurrences of [sep], left to right.
    [skip] counts the characters of an occurrence still to be passed,
    [cur] is the piece being read. *)
Fixpoint split_go (sep : jstr) (skip : nat) (cur : jstr) (s : jstr) : list jstr :=
  match s with
  | [] => [cur]
  | c :: s' =>
      match skip with
      | S k => split_go sep k cur s'
      | O =>
          if startsWith s sep
          then cur :: split_go sep (Nat.pred (List.length sep)) [] s'
          else split_go sep O (cur ++ [c]) s'
      end
  end.

Definition split (s sep : jstr) : list jstr := split_go sep O [] s.

(** Truthiness of a string: the empty string is falsy. *)
Definition truthy_str (s : jstr) : bool :=
  match s with [] => false | _ :: _ => true end.

End JS.

(** ** Node's [path] module, POSIX flavour *)

Module Path.

Definition CHAR_FORWARD_SLASH : ascii := "/"%char.
Definition CHAR_DOT : ascii := "."%char.

Definition isPosixPathSeparator (c : ascii) : bool := Ascii.eqb c CHAR_FORWARD_SLASH.

(** The loop state of [normalizeString].  [seg] is the text
    [path.slice(lastSlash + 1, i)] read since the last separator, so that
    the test [lastSlash === i - 1] of the source is [seg = []]; [code] is
    the last character code read ([0] before the first one). *)
Record NormState : Type := mkNorm {
  res : jstr;
  lastSegmentLength : Z;
  seg : jstr;
  dots : Z;
  code : ascii
}.

Definition norm_init : NormState :=
  {| res := []; lastSegmentLength := 0; seg := []; dots := 0; code := zero |}.

Definition next_segment (r : jstr) (l : Z) (c : ascii) : NormState :=
  {| res := r; lastSegmentLength := l; seg := []; dots := 0; code := c |}.

(** The body of [if (isPathSeparator(code))]. *)
Definition on_separator (allowAboveRoot : bool) (st : NormState) (c : ascii) : NormState :=
  let r := res st in
  let above :=
    if allowAboveRoot
    then next_segment (match r with [] => ".." | _ :: _ => r ++ "/.." end) 2 c
    else next_segment r (lastSegmentLength st) c in
  match seg st with
  | [] => next_segment r (lastSegmentLength st) c
  | _ :: _ =>
      if dots st =? 1 then next_segment r (lastSegmentLength st) c
      else if dots st =? 2 then
        if (JS.len r <? 2)
           || negb (lastSegmentLength st =? 2)
           || negb (JS.is_code (JS.charCodeAt r (JS.len r - 1)) CHAR_DOT)
           || negb (JS.is_code (JS.charCodeAt r (JS.len r - 2)) CHAR_DOT)
        then
          if 2 <? JS.len r then
            let lastSlashIndex := JS.lastIndexOf r CHAR_FORWARD_SLASH in
            if lastSlashIndex =? -1
            then next_segment [] 0 c
            else
              let r' := JS.sliceTo r lastSlashIndex in
              next_segment r' (JS.len r' - 1 - JS.lastIndexOf r' CHAR_FORWARD_SLASH) c
          else if negb (JS.len r =? 0) then next_segment [] 0 c
          else above
        else above
      else
        next_segment (match r with [] => seg st | _ :: _ => r ++ "/" ++ seg st end)
                     (JS.len (seg st)) c
  end.

(** One iteration of the loop for [i < path.length]. *)
Definition norm_step (allowAboveRoot : bool) (st : NormState) (c : ascii) : NormState :=
  if isPosixPathSeparator c then on_separator allowAboveRoot st c
  else if Ascii.eqb c CHAR_DOT && negb (dots st =? -1)
  then {| res := res st; lastSegmentLength := lastSegmentLength st;
          seg := seg st ++ [c]; dots := dots st + 1; code := c |}
  else {| res := res st; lastSegmentLength := lastSegmentLength st;
          seg := seg st ++ [c]; dots := -1; code := c |}.

(** [normalizeString(path, allowAboveRoot, "/", isPosixPathSeparator)]:
    the iterations for [i < path.length], then the one for
    [i = path.length], which stops if the last code was a separator and
    otherwise acts as if a separator followed. *)
Definition normalizeString (path : jstr) (allowAboveRoot : bool) : jstr :=
  let st := fold_left (norm_step allowAboveRoot) path norm_init in
  if isPosixPathSeparator (code st) then res st
  else res (on_separator allowAboveRoot st CHAR_FORWARD_SLASH).

Definition validateString (v : value) (name : argName) : result jstr :=
  match v with
  | JString s => Ok s
  | _ => Throw (ERR_INVALID_ARG_TYPE name)
  end.

Definition isAbsolute (p : jstr) : bool :=
  match p with
  | c :: _ => Ascii.eqb c CHAR_FORWARD_SLASH
  | [] => false
  end.

(** The loop of [resolve], from the last argument down to the working
    directory ([i = -1]); [rargs] is the list of arguments not yet
    visited, last one first.  It stops at the first absolute path. *)
Fixpoint resolve_loop (cwd : jstr) (rargs : list value) (resolvedPath : jstr)
  : result (jstr * bool) :=
  match rargs with
  | [] =>
      match cwd with
      | [] => Ok (resolvedPath, false)
      | _ :: _ => Ok (cwd ++ "/" ++ resolvedPath, isAbsolute cwd)
      end
  | a :: rest =>
      p <- validateString a (ArgPaths (List.length rest)) ;;
      match p with
      | [] => resolve_loop cwd rest resolvedPath
      | _ :: _ =>
          let resolvedPath' := p ++ "/" ++ resolvedPath in
          if isAbsolute p then Ok (resolvedPath', true)
          else resolve_loop cwd rest resolvedPath'
      end
  end.

(** [path.resolve(...args)] with [process.cwd()] returning [cwd]. *)
Definition resolve (cwd : jstr) (args : list value) : result jstr :=
  pr <- resolve_loop cwd (rev args) [] ;;
  let '(resolvedPath, resolvedAbsolute) := pr in
  let normalized := normalizeString resolvedPath (negb resolvedAbsolute) in
  if resolvedAbsolute then Ok ("/" ++ normalized)
  else Ok (match normalized with [] => "." : jstr | _ :: _ => normalized end).

(** The first loop of [relative]: [n] iterations are left, [i] is the
    loop counter.  Returns the final [i] and [lastCommonSep]. *)
Fixpoint common_loop (from to : jstr) (n : nat) (i lastCommonSep : Z) : Z * Z :=
  match n with
  | O => (i, lastCommonSep)
  | S n' =>
      let fromCode := JS.charCodeAt from (1 + i) in
      if negb (JS.code_eqb fromCode (JS.charCodeAt to (1 + i)))
      then (i, lastCommonSep)
      else common_loop from to n' (i + 1)
             (if JS.is_code fromCode CHAR_FORWARD_SLASH then i else lastCommonSep)
  end.

(** The second loop of [relative], from index [i], with [n] iterations
    left, the last of which is [i = fromEnd]. *)
Fixpoint up_loop (from : jstr) (fromEnd : Z) (n : nat) (i : Z) (out : jstr) : jstr :=
  match n with
  | O => out
  | S n' =>
      up_loop from fromEnd n' (i + 1)
        (if (i =? fromEnd) || JS.is_code (JS.charCodeAt from i) CHAR_FORWARD_SLASH
         then out ++ (match out with [] => ".." : jstr | _ :: _ => "/.." end)
         else out)
  end.

(** [relative] once both paths have been resolved and found different. *)
Definition relative_resolved (from to : jstr) : jstr :=
  let fromStart := 1 in
  let fromEnd := JS.len from in
  let fromLen := fromEnd - fromStart in
  let toStart := 1 in
  let toLen := JS.len to - toStart in
  let length := if fromLen <? toLen then fromLen else toLen in
  let '(i, lastCommonSep0) := common_loop from to (Z.to_nat length) 0 (-1) in
  let tail (lastCommonSep : Z) :=
    up_loop from fromEnd (Z.to_nat (fromEnd + 1 - (fromStart + lastCommonSep + 1)))
            (fromStart + lastCommonSep + 1) []
    ++ JS.sliceFrom to (toStart + lastCommonSep) in
  if i =? length then
    if length <? toLen then
      if JS.is_code (JS.charCodeAt to (toStart + i)) CHAR_FORWARD_SLASH
      then JS.sliceFrom to (toStart + i + 1)
      else if i =? 0 then JS.sliceFrom to (toStart + i)
      else tail lastCommonSep0
    else if length <? fromLen then
      if JS.is_code (JS.charCodeAt from (fromStart + i)) CHAR_FORWARD_SLASH
      then tail i
      else if i =? 0 then tail 0
      else tail lastCommonSep0
    else tail lastCommonSep0
  else tail lastCommonSep0.

(** [path.relative(from, to)]. *)
Definition relative (cwd : jstr) (from to : value) : result jstr :=
  f <- validateString from ArgFrom ;;
  t <- validateString to ArgTo ;;
  if JS.str_eqb f t then Ok []
  else
    f' <- resolve cwd [JString f] ;;
    t' <- resolve cwd [JString t] ;;
    if JS.str_eqb f' t' then Ok []
    else Ok (relative_resolved f' t').

End Path.

(** ** The two regular expressions of the router *)

Module Regex.

(** The class [[/\\]]. *)
Definition is_sep (c : ascii) : bool :=
  Ascii.eqb c "/"%char || Ascii.eqb c "\"%char.

(** [[/\\]*], greedy: what is left after the leading separators. *)
Fixpoint skip_seps (s : jstr) : jstr :=
  match s with
  | c :: s' => if is_sep c then skip_seps s' else s
  | [] => []
  end.

(** [[/\\]+], greedy. *)
Definition seps1 (s : jstr) : option jstr :=
  match s with
  | c :: s' => if is_sep c then Some (skip_seps s') else None
  | [] => None
  end.

Definition literal (p s : jstr) : option jstr :=
  if JS.startsWith s p then Some (skipn (List.length p) s) else None.

(** One iteration of the group [(assets[/\\]+)]. *)
Definition assets_group (s : jstr) : option jstr :=
  match literal "assets" s with
  | Some r => seps1 r
  | None => None
  end.

(** The further iterations of [(assets[/\\]+)+], as many as match. *)
Fixpoint assets_groups (fuel : nat) (s : jstr) : jstr :=
  match fuel with
  | O => s
  | S f =>
      match assets_group s with
      | Some r => assets_groups f r
      | None => s
      end
  end.

(** [/^[/\\]+(assets[/\\]+)+/]: [Some rest] when the expression matches a
    prefix of [s], [rest] being what follows the match.  Every quantifier
    is greedy; no shorter run of separators can make a later part match,
    since each part that follows a run starts with a non-separator. *)
Definition assetsRegex (s : jstr) : option jstr :=
  match seps1 s with
  | Some r =>
      match assets_group r with
      | Some r' => Some (assets_groups (List.length r') r')
      | None => None
      end
  | None => None
  end.

(** [assetsRegex.test(s)]. *)
Definition assetsRegex_test (s : jstr) : bool :=
  match assetsRegex s with Some _ => true | None => false end.

(** [s.replace(assetsRegex, "")]. *)
Definition assetsRegex_strip (s : jstr) : jstr :=
  match assetsRegex s with Some rest => rest | None => s end.

(** [s.replace(/^[/\\]+/, "")]. *)
Definition leadingSeps_strip (s : jstr) : jstr := skip_seps s.

End Regex.

(** ** Collaborators and effects *)

(** What the handlers read from the [process] object. *)
Record Process : Type := mkProcess {
  resourcesPath : jstr;   (* process.resourcesPath *)
  cwd : jstr              (* process.cwd() *)
}.

(** [new URL(req.url)] and [req.method]. *)
Record Request : Type := mkRequest {
  method : jstr;
  host : jstr;
  pathname : jstr
}.

(** The URL [pathToFileURL(p)] of an absolute path [p]; its text (the
    percent-encoding of [p]) is not modelled. *)
Inductive fileURL : Type :=
| FileURL (path : jstr).

Definition pathToFileURL (p : jstr) : fileURL := FileURL p.

Record Response : Type := mkResponse {
  body : jstr;
  status : Z;
  headers : list (jstr * jstr)
}.

(** What [handleYTMDAppProtocol] returns: a [Response] it built, or the
    promise of [net.fetch]. *)
Inductive reply : Type :=
| Responded (r : Response)
| Fetched (url : fileURL).

Record WatchEndpoint : Type := mkWatchEndpoint {
  videoId : value;
  playlistId : value
}.

Inductive logLevel : Type := Info | Debug | Warn.

Inductive logPart : Type :=
| Text (s : jstr)
| UrlText (u : fileURL).

(** The calls made on the collaborators, in order. *)
Inductive event : Type :=
| Log (level : logLevel) (message : list logPart)
| NetFetch (url : fileURL)
| AwaitReady
| Send (channel command : jstr) (watchEndpoint : WatchEndpoint).

(** A computation that performs events and then returns or throws. *)
Definition Eff (A : Type) : Type := (list event * result A)%type.

Definition ret {A : Type} (a : A) : Eff A := ([], Ok a).

Definition ebind {A B : Type} (m : Eff A) (k : A -> Eff B) : Eff B :=
  match m with
  | (l, Ok a) => let '(l', r) := k a in (l ++ l', r)
  | (l, Throw e) => (l, Throw e)
  end.

Definition lift {A : Type} (r : result A) : Eff A := ([], r).

Definition emit (e : event) : Eff unit := ([e], Ok tt).

Notation "x <<- m ;; k" := (ebind m (fun x => k))
  (at level 61, m at next level, right associativity).
Notation "m >> k" := (ebind m (fun _ => k))
  (at level 61, right associativity).

Definition trace {A : Type} (m : Eff A) : list event := fst m.
Definition outcome {A : Type} (m : Eff A) : result A := snd m.

(** ** The program *)

Definition truthy (v : value) : bool :=
  match v with
  | JUndefined => false
  | JString s => JS.truthy_str s
  | JBool b => b
  end.

(** Template-literal rendering of a value. *)
Definition toString (v : value) : jstr :=
  match v with
  | JUndefined => "undefined"
  | JString s => s
  | JBool true => "true"
  | JBool false => "false"
  end.

(** [a[i]]: [undefined] past the end. *)
Definition index (a : list jstr) (i : nat) : value :=
  match nth_error a i with
  | Some s => JString s
  | None => JUndefined
  end.

(** [a.length]. *)
Definition alength (a : list jstr) : Z := Z.of_nat (List.length a).

Definition value_is (v : value) (s : jstr) : bool :=
  match v with
  | JString t => JS.str_eqb t s
  | _ => false
  end.

(** Lines 139-144. *)
Definition isSafePath (proc : Process) (rootPath : value) (requestedPath : jstr)
  : result value :=
  pathToServe <- Path.resolve (cwd proc) [rootPath; JString requestedPath] ;;
  relativePath <- Path.relative (cwd proc) rootPath (JString pathToServe) ;;
  Ok (if JS.truthy_str relativePath
      then JBool (negb (JS.startsWith relativePath "..")
                  && negb (Path.isAbsolute relativePath))
      else JString relativePath).

(** The view manager as the dispatcher sees it. *)
Record YTMViewManager : Type := mkView {
  isInitialized : bool
}.

(** Lines 56-85.  [AwaitReady] marks the suspension on
    [ytmViewManager.ready()]; what follows it runs once the wait is over. *)
Definition handleYTMDProtocol (ytmViewManager : YTMViewManager) (url : jstr) : Eff unit :=
  emit (Log Info [Text "Handling ytmd protocol url"; Text url]) >>
  let urlPaths := index (JS.split url "://") 1%nat in
  match urlPaths with
  | JString urlPaths' =>
      if truthy urlPaths then
        let paths := JS.split urlPaths' "/" in
        if 0 <? alength paths then
          if value_is (index paths 0%nat) "play" then
            if 2 <=? alength paths then
              let videoId := index paths 1%nat in
              let playlistId := index paths 2%nat in
              if isInitialized ytmViewManager then
                emit (Log Debug [Text ("Navigating to videoId: " ++ toString videoId
                                       ++ ", playlistId: " ++ toString playlistId)]) >>
                emit AwaitReady >>
                emit (Send "remoteControl:execute" "navigate"
                           {| videoId := videoId; playlistId := playlistId |})
              else ret tt
            else ret tt
          else ret tt
        else ret tt
      else ret tt
  | _ => ret tt
  end.

Definition windowsRoot (proc : Process) (name : jstr) : result value :=
  r <- Path.resolve (cwd proc)
         [JString (resourcesPath proc);
          JString ("app.asar/.vite/renderer/windows/" ++ name)] ;;
  Ok (JString r).

(** Lines 89-110: the [switch] on [host]. *)
Definition rootOfHost (proc : Process) (host : jstr) : result value :=
  if JS.str_eqb host "updater" then windowsRoot proc "updater"
  else if JS.str_eqb host "main" then windowsRoot proc "main"
  else if JS.str_eqb host "titlebar" then windowsRoot proc "titlebar"
  else if JS.str_eqb host "settings" then windowsRoot proc "settings"
  else Ok JUndefined.

Definition assetsRoot (proc : Process) : result value :=
  r <- Path.resolve (cwd proc)
         [JString (resourcesPath proc); JString "app.asar/.vite/renderer/assets"] ;;
  Ok (JString r).

(** Lines 114-115. *)
Definition indexDefault (pathname : jstr) : jstr :=
  if JS.str_eqb pathname "/" then "/index.html" else pathname.

(** Lines 114-123: from the root of the host and the pathname to the root
    and the path handed to the guard. *)
Definition rewritePath (proc : Process) (rootPath : value) (pathname : jstr)
  : result (value * jstr) :=
  let desiredPath := indexDefault pathname in
  rp <- (if Regex.assetsRegex_test desiredPath
         then r <- assetsRoot proc ;; Ok (r, Regex.assetsRegex_strip desiredPath)
         else Ok (rootPath, desiredPath)) ;;
  let '(rootPath, desiredPath) := rp in
  Ok (rootPath, Regex.leadingSeps_strip desiredPath).

(** Lines 88-123 without the log line: the root and path of a request. *)
Definition resolveRequest (proc : Process) (host pathname : jstr)
  : result (value * jstr) :=
  rootPath <- rootOfHost proc host ;;
  rewritePath proc rootPath pathname.

Definition policyViolation : Response :=
  {| body := "Policy Violation";
     status := 403;
     headers := [("Content-Type" : jstr, "text/html" : jstr)] |}.

(** Lines 87-137. *)
Definition handleYTMDAppProtocol (proc : Process) (req : Request) : Eff reply :=
  rootPath <<- lift (rootOfHost proc (host req)) ;;
  emit (Log Debug [Text (method req ++ " ytmd-app://" ++ host req ++ pathname req)]) >>
  rp <<- lift (rewritePath proc rootPath (pathname req)) ;;
  let '(rootPath, desiredPath) := rp in
  safe <<- lift (isSafePath proc rootPath desiredPath) ;;
  if negb (truthy safe) then
    emit (Log Warn [Text "Requested path violated the safe path policy"]) >>
    ret (Responded policyViolation)
  else
    resolved <<- lift (Path.resolve (cwd proc) [rootPath; JString desiredPath]) ;;
    let fileUrlPath := pathToFileURL resolved in
    emit (Log Debug [Text "Path inferenced to "; UrlText fileUrlPath]) >>
    emit (NetFetch fileUrlPath) >>
    ret (Fetched fileUrlPath).


(** ** The lifecycle hooks (lines 12-54) *)

Record Privileges : Type := mkPrivileges {
  standard : bool;
  secure : bool
}.

Record CustomScheme : Type := mkCustomScheme {
  scheme : jstr;
  privileges : Privileges
}.

(** What [onInitialized] reads from [app] and [process], besides the
    working directory. *)
Record Host : Type := mkHost {
  isDefaultProtocolClient : jstr -> bool;  (* app.isDefaultProtocolClient(protocol) *)
  defaultApp : bool;                       (* truthiness of process.defaultApp *)
  argv : list jstr;                        (* process.argv *)
  execPath : jstr                          (* process.execPath *)
}.

(** The calls the hooks make on [protocol], [app] and the logger. *)
Inductive hostCall : Type :=
| RegisterSchemesAsPrivileged (customSchemes : list CustomScheme)
| ProtocolHandle (scheme : jstr)
| LogInfo (message : jstr)
| SetAsDefaultProtocolClient (protocol path : jstr) (args : option (list jstr)).

(** What a hook can throw: an [Error] of the program or an error of Node. *)
Inductive exn : Type :=
| JsError (message : jstr)
| NodeError (e : jsError).

(** The instance state. *)
Record ProtocolManager : Type := mkProtocolManager {
  _initialized : bool
}.

(** A hook ends normally or by a throw; either way it leaves the instance
    in a state and has made some calls. *)
Inductive hookResult : Type :=
| Completed (this : ProtocolManager) (calls : list hostCall)
| Thrown (this : ProtocolManager) (calls : list hostCall) (e : exn).

(** Lines 13-15. *)
Definition initialized (this : ProtocolManager) : bool := _initialized this.

(** Lines 17-28. *)
Definition onPreInitialized (this : ProtocolManager) : hookResult :=
  Completed this
    [RegisterSchemesAsPrivileged
       [{| scheme := "ytmd-app";
           privileges := {| standard := true; secure := true |} |}]].

Definition defaultClientLog : hostCall :=
  LogInfo "Application set as default protcol client for 'ytmd'".

(** Lines 30-50. *)
Definition onInitialized (proc : Process) (h : Host) (this : ProtocolManager)
  : hookResult :=
  if _initialized this
  then Thrown this [] (JsError "ProtocolManager is already initialized!")
  else
    let this := {| _initialized := true |} in
    let calls := [ProtocolHandle "ytmd-app"] in
    if negb (isDefaultProtocolClient h "ytmd") then
      if defaultApp h then
        if 2 <=? alength (argv h) then
          match Path.resolve (cwd proc) [index (argv h) 1%nat] with
          | Ok resolved =>
              Completed this
                (calls ++ [defaultClientLog;
                           SetAsDefaultProtocolClient "ytmd" (execPath h) (Some [resolved])])
          | Throw e => Thrown this (calls ++ [defaultClientLog]) (NodeError e)
          end
        else Completed this calls
      else
        Completed this
          (calls ++ [defaultClientLog;
                     SetAsDefaultProtocolClient "ytmd" (execPath h) None])
    else Completed this calls.

(** Lines 52 and 54. *)
Definition onPostInitialized (this : ProtocolManager) : hookResult := Completed this [].

Definition onTerminated (this : ProtocolManager) : hookResult := Completed this [].

(** * Vocabulary of the proofs *)

(** ** Paths as lists of segments

    With [allowAboveRoot = false] the loop of [normalizeString] keeps in
    [res] segments joined by single slashes, none of them empty, ["."] or
    [".."]. *)

Definition good (w : jstr) : Prop :=
  w <> [] /\ ~ In "/"%char w /\ w <> "." /\ w <> "..".

Fixpoint join (segs : list jstr) : jstr :=
  match segs with
  | [] => []
  | w :: rest =>
      match rest with
      | [] => w
      | _ :: _ => w ++ "/" ++ join rest
      end
  end.

(** The value of [dots] once the text [w] has been read since the last
    separator: its length if it is made of dots, [-1] otherwise. *)
Definition dots_of (w : jstr) : Z :=
  if forallb (fun c => Ascii.eqb c ".") w then JS.len w else -1.

(** What a separator does to the segments when the pending text is [w]:
    nothing, a pop or a push. *)
Definition seg_step (segs : list jstr) (w : jstr) : list jstr :=
  if JS.str_eqb w [] || JS.str_eqb w "." then segs
  else if JS.str_eqb w ".." then removelast segs
  else segs ++ [w].

(** The loop state that stands for the segments [segs] in [res] and the
    pending text [w]. *)
Definition abs (segs : list jstr) (w : jstr) (c : ascii) : Path.NormState :=
  {| Path.res := join segs;
     Path.lastSegmentLength := JS.len (last segs []);
     Path.seg := w;
     Path.dots := dots_of w;
     Path.code := c |}.

(** The loop on segments: the segments kept and the pending text after
    reading [s]. *)
Fixpoint afold (segs : list jstr) (w : jstr) (s : jstr) : list jstr * jstr :=
  match s with
  | [] => (segs, w)
  | c :: s' =>
      if Path.isPosixPathSeparator c then afold (seg_step segs w) [] s'
      else afold segs (w ++ [c]) s'
  end.

(** The segments of the normal form of [s]. *)
Definition normalize_segs (s : jstr) : list jstr :=
  let '(segs, w) := afold [] [] s in seg_step segs w.

(** The segments of [r/c]: those of [r], then the loop on [c]. *)
Definition extend (segs : list jstr) (c : jstr) : list jstr :=
  seg_step (fst (afold segs [] c)) (snd (afold segs [] c)).

(** Decidable forms, for concrete segments. *)
Definition has_slash (w : jstr) : bool := existsb (Ascii.eqb "/") w.

Definition goodb (w : jstr) : bool :=
  JS.truthy_str w && negb (has_slash w)
  && negb (JS.str_eqb w ".") && negb (JS.str_eqb w "..").

(** ** The guard and the router *)

(** What the guard returns from the relative path (line 142). *)
Definition verdict (relativePath : jstr) : value :=
  if JS.truthy_str relativePath
  then JBool (negb (JS.startsWith relativePath "..")
              && negb (Path.isAbsolute relativePath))
  else JString relativePath.

(** The hosts the [switch] knows. *)
Definition is_mapped (host : jstr) : bool :=
  JS.str_eqb host "updater" || JS.str_eqb host "main"
  || JS.str_eqb host "titlebar" || JS.str_eqb host "settings".

(** The three log lines of the router. *)
Definition requestLog (req : Request) : event :=
  Log Debug [Text (method req ++ " ytmd-app://" ++ host req ++ pathname req)].

Definition violationLog : event :=
  Log Warn [Text "Requested path violated the safe path policy"].

Definition inferenceLog (url : fileURL) : event :=
  Log Debug [Text "Path inferenced to "; UrlText url].

(** The segments of the root of the bundle [name], and of the shared
    assets root, below the segments of [process.resourcesPath]. *)
Definition bundleSegs (proc : Process) (name : jstr) : list jstr :=
  normalize_segs (resourcesPath proc)
  ++ ["app.asar" : jstr; ".vite" : jstr; "renderer" : jstr; "windows" : jstr; name].

Definition assetsSegs (proc : Process) : list jstr :=
  normalize_segs (resourcesPath proc)
  ++ ["app.asar" : jstr; ".vite" : jstr; "renderer" : jstr; "assets" : jstr].

Definition traversals : list jstr :=
  ["../secret" : jstr; "../../etc/passwd" : jstr; "/etc/passwd" : jstr].

(** ** The dispatcher *)

Definition handlingLog (url : jstr) : event :=
  Log Info [Text "Handling ytmd protocol url"; Text url].

Definition navigatingLog (w : WatchEndpoint) : event :=
  Log Debug [Text ("Navigating to videoId: " ++ toString (videoId w)
                   ++ ", playlistId: " ++ toString (playlistId w))].

Definition navigate (w : WatchEndpoint) : event :=
  Send "remoteControl:execute" "navigate" w.

(** The navigation commands a trace sends to the view. *)
Definition sent (tr : list event) : list WatchEndpoint :=
  flat_map (fun e => match e with
                     | Send _ _ w => [w]
                     | _ => []
                     end) tr.

(** The URI has a non-empty remainder after ["://"], whose segments are
    [paths]: at least two, the first one ["play"]. *)
Definition playLink (url : jstr) (paths : list jstr) : Prop :=
  exists remainder,
    index (JS.split url "://") 1%nat = JString remainder
    /\ remainder <> []
    /\ paths = JS.split remainder "/"
    /\ index paths 0%nat = JString "play"
    /\ 2 <= alength paths.

Definition commandOf (paths : list jstr) : WatchEndpoint :=
  {| videoId := index paths 1%nat; playlistId := index paths 2%nat |}.

(** ** Vocabulary of the further properties *)

(** [sep] occurs in [s]. *)
Definition occurs (sep s : jstr) : Prop := exists a b, s = a ++ sep ++ b.

(** A segment as a bundle contains them: good, and free of backslashes,
    which the router takes for separators. *)
Definition plain (w : jstr) : Prop := good w /\ ~ In "\"%char w.

Definition plainb (w : jstr) : bool :=
  goodb w && negb (existsb (Ascii.eqb "\") w).

(** An ordinary relative path: plain segments, at least one, the first of
    which neither is [assets] nor begins with two dots. *)
Definition ordinary (rest : list jstr) : Prop :=
  Forall plain rest
  /\ exists first others,
       rest = first :: others
       /\ first <> "assets"
       /\ JS.startsWith first ".." = false.

(** The calls of a hook that set the default protocol client. *)
Definition defaultClientCalls (calls : list hostCall) : list hostCall :=
  filter (fun c => match c with
                   | SetAsDefaultProtocolClient _ _ _ => true
                   | _ => false
                   end) calls.

(** The calls of a hook that install a protocol handler. *)
Definition handlerCalls (calls : list hostCall) : list jstr :=
  flat_map (fun c => match c with
                     | ProtocolHandle s => [s]
                     | _ => []
                     end) calls.

(** What a hook leaves behind. *)
Definition stateAfter (r : hookResult) : ProtocolManager :=
  match r with
  | Completed this _ => this
  | Thrown this _ _ => this
  end.

Definition callsOf (r : hookResult) : list hostCall :=
  match r with
  | Completed _ calls => calls
  | Thrown _ calls _ => calls
  end.

Definition completes (r : hookResult) : bool :=
  match r with
  | Completed _ _ => true
  | Thrown _ _ _ => false
  end.

(** The files the handler asks [net.fetch] for. *)
Definition fetched (tr : list event) : list jstr :=
  flat_map (fun e => match e with
                     | NetFetch (FileURL path) => [path]
                     | _ => []
                     end) tr.

Definition exampleHost : Host :=
  {| isDefaultProtocolClient := fun _ => false;
     defaultApp := true;
     argv := ["/usr/bin/electron" : jstr; "." : jstr];
     execPath := "/usr/bin/electron" |}.

(** ** Concrete inputs *)

Definition exampleProcess : Process :=
  {| resourcesPath := "/opt/YTMD/resources"; cwd := "/home/user" |}.

Definition exampleRoot : jstr :=
  "/opt/YTMD/resources/app.asar/.vite/renderer/windows/main".

Definition bogusRequest (m : jstr) : Request :=
  {| method := m; host := "bogus"; pathname := "/index.html" |}.

(** * Verification *)

(** ** Strings *)

Lemma str_eqb_eq (a b : jstr) : JS.str_eqb a b = true <-> a = b.
Proof.
  revert b; induction a as [|x a IH]; intros [|y b]; simpl; split;
    try congruence; try reflexivity.
  - intros H. apply andb_true_iff in H as [Hx Hab].
    apply Ascii.eqb_eq in Hx. apply IH in Hab. congruence.
  - intros H. injection H as -> ->. rewrite Ascii.eqb_refl. simpl.
    apply IH; reflexivity.
Qed.

Lemma str_eqb_refl (a : jstr) : JS.str_eqb a a = true.
Proof. apply str_eqb_eq; reflexivity. Qed.

Lemma str_eqb_neq (a b : jstr) : JS.str_eqb a b = false <-> a <> b.
Proof.
  split.
  - intros H E. apply str_eqb_eq in E. congruence.
  - intros H. destruct (JS.str_eqb a b) eqn:E; [|reflexivity].
    apply str_eqb_eq in E. contradiction.
Qed.

Lemma startsWith_app (p t : jstr) : JS.startsWith (p ++ t) p = true.
Proof.
  induction p as [|y p IH]; simpl; [destruct t; reflexivity|].
  rewrite Ascii.eqb_refl. exact IH.
Qed.

Lemma startsWith_inv (s p : jstr) :
  JS.startsWith s p = true -> exists t, s = p ++ t.
Proof.
  revert s; induction p as [|y p IH]; intros s H.
  - exists s; reflexivity.
  - destruct s as [|x s]; [discriminate|]. simpl in H.
    apply andb_true_iff in H as [Hx Hs]. apply Ascii.eqb_eq in Hx. subst y.
    destruct (IH _ Hs) as [t ->]. exists t; reflexivity.
Qed.

Lemma len_app (a b : jstr) : JS.len (a ++ b) = JS.len a + JS.len b.
Proof. unfold JS.len. rewrite length_app. lia. Qed.

Lemma len_nonneg (a : jstr) : 0 <= JS.len a.
Proof. unfold JS.len. lia. Qed.

Lemma len_cons (c : ascii) (a : jstr) : JS.len (c :: a) = 1 + JS.len a.
Proof. unfold JS.len. simpl List.length. lia. Qed.

Lemma len_nil : JS.len [] = 0.
Proof. reflexivity. Qed.

Lemma charCodeAt_app_r (a b : jstr) (i : Z) :
  0 <= i -> JS.charCodeAt (a ++ b) (JS.len a + i) = JS.charCodeAt b i.
Proof.
  intros Hi. unfold JS.charCodeAt, JS.len.
  destruct (Z.ltb_spec (Z.of_nat (List.length a) + i) 0); [lia|].
  destruct (Z.ltb_spec i 0); [lia|].
  replace (Z.to_nat (Z.of_nat (List.length a) + i))
    with (List.length a + Z.to_nat i)%nat by lia.
  rewrite nth_error_app2 by lia. f_equal. lia.
Qed.

Lemma charCodeAt_app_l (a b : jstr) (i : Z) :
  0 <= i < JS.len a -> JS.charCodeAt (a ++ b) i = JS.charCodeAt a i.
Proof.
  intros Hi. unfold JS.charCodeAt, JS.len in *.
  destruct (Z.ltb_spec i 0); [lia|].
  apply nth_error_app1. lia.
Qed.

Lemma charCodeAt_some (a : jstr) (i : Z) :
  0 <= i < JS.len a -> exists c, JS.charCodeAt a i = Some c.
Proof.
  intros Hi. unfold JS.charCodeAt, JS.len in *.
  destruct (Z.ltb_spec i 0); [lia|].
  destruct (nth_error a (Z.to_nat i)) eqn:E; [eauto|].
  apply nth_error_None in E. lia.
Qed.

Lemma code_eqb_refl (c : ascii) : JS.code_eqb (Some c) (Some c) = true.
Proof. simpl. apply Ascii.eqb_refl. Qed.

Lemma lastIndexOf_from_absent (c : ascii) (s : jstr) (i acc : Z) :
  ~ In c s -> JS.lastIndexOf_from c s i acc = acc.
Proof.
  revert i acc; induction s as [|x s IH]; intros i acc H; simpl; [reflexivity|].
  destruct (Ascii.eqb_spec x c) as [->|_].
  - exfalso; apply H; left; reflexivity.
  - apply IH. intros Hin; apply H; right; exact Hin.
Qed.

Lemma lastIndexOf_from_app (c : ascii) (u v : jstr) (i acc : Z) :
  ~ In c v ->
  JS.lastIndexOf_from c (u ++ c :: v) i acc = i + JS.len u.
Proof.
  revert i acc; induction u as [|x u IH]; intros i acc H; simpl.
  - rewrite Ascii.eqb_refl. rewrite lastIndexOf_from_absent by exact H.
    rewrite len_nil; lia.
  - rewrite IH by exact H. rewrite len_cons. lia.
Qed.

Lemma lastIndexOf_absent (c : ascii) (s : jstr) :
  ~ In c s -> JS.lastIndexOf s c = -1.
Proof. apply lastIndexOf_from_absent. Qed.

Lemma lastIndexOf_app (c : ascii) (u v : jstr) :
  ~ In c v -> JS.lastIndexOf (u ++ c :: v) c = JS.len u.
Proof.
  intros H. unfold JS.lastIndexOf. rewrite lastIndexOf_from_app by exact H. lia.
Qed.

Lemma sliceTo_app (u v : jstr) : JS.sliceTo (u ++ v) (JS.len u) = u.
Proof.
  unfold JS.sliceTo, JS.len. rewrite Nat2Z.id.
  rewrite firstn_app, Nat.sub_diag, firstn_all. simpl. apply app_nil_r.
Qed.

Lemma sliceFrom_app (u v : jstr) : JS.sliceFrom (u ++ v) (JS.len u) = v.
Proof.
  unfold JS.sliceFrom, JS.len. rewrite Nat2Z.id.
  rewrite skipn_app, Nat.sub_diag, skipn_all. reflexivity.
Qed.

(** ** [normalizeString], segment by segment

    Each separator the loop meets pushes the pending segment, pops the
    last one or does nothing; [res] stays a list of good segments. *)

Lemma snoc_cases {A : Type} (l : list A) :
  l = [] \/ exists init a, l = init ++ [a].
Proof.
  destruct l as [|x l]; [left; reflexivity|right].
  destruct (@exists_last _ (x :: l)) as (init & a & E); [discriminate|].
  exists init, a; exact E.
Qed.

Lemma join_snoc (segs : list jstr) (w : jstr) :
  segs <> [] -> join (segs ++ [w]) = join segs ++ "/" ++ w.
Proof.
  induction segs as [|a rest IH]; intros H; [contradiction|].
  destruct rest as [|b rest'].
  - reflexivity.
  - change (join ((a :: b :: rest') ++ [w]))
      with (a ++ "/" ++ join ((b :: rest') ++ [w])).
    rewrite IH by discriminate.
    change (join (a :: b :: rest')) with (a ++ "/" ++ join (b :: rest')).
    rewrite <- !app_assoc. reflexivity.
Qed.

Lemma join_nonempty (segs : list jstr) :
  Forall good segs -> segs <> [] -> join segs <> [].
Proof.
  intros Hg Hne. destruct segs as [|a rest]; [contradiction|].
  inversion Hg as [|? ? [Ha _] _]; subst.
  destruct rest; simpl; [exact Ha|].
  destruct a; [contradiction|discriminate].
Qed.

Lemma join_last_len (segs : list jstr) :
  Forall good segs ->
  JS.len (join segs) - 1 - JS.lastIndexOf (join segs) "/" = JS.len (last segs []).
Proof.
  intros Hg. destruct (snoc_cases segs) as [->|(init & a & ->)]; [reflexivity|].
  rewrite last_last.
  apply Forall_app in Hg as [_ Ha]. inversion Ha as [|? ? (_ & Hs & _) _]; subst.
  destruct init as [|b init'].
  - simpl. rewrite lastIndexOf_absent by exact Hs. lia.
  - rewrite join_snoc by discriminate.
    change ("/" ++ a) with ("/"%char :: a).
    rewrite lastIndexOf_app by exact Hs.
    rewrite len_app, len_cons. lia.
Qed.

Lemma dots_of_cases (w : jstr) :
  (w = "." /\ dots_of w = 1) \/ (w = ".." /\ dots_of w = 2)
  \/ (w <> "." /\ w <> ".." /\ dots_of w <> 1 /\ dots_of w <> 2).
Proof.
  unfold dots_of.
  destruct w as [|a [|b [|c w]]]; simpl.
  - right; right; repeat split; try discriminate; rewrite len_nil; lia.
  - destruct (Ascii.eqb_spec a "."); simpl.
    + left; subst; split; reflexivity.
    + right; right; repeat split; try congruence; lia.
  - destruct (Ascii.eqb_spec a "."); destruct (Ascii.eqb_spec b "."); simpl;
      try (right; right; repeat split; try congruence; lia).
    right; left; subst; split; reflexivity.
  - right; right. repeat split; try discriminate;
      destruct (_ && _); rewrite ?len_cons; pose proof (len_nonneg w); lia.
Qed.

Lemma dots_of_snoc (w : jstr) (c : ascii) :
  dots_of (w ++ [c]) =
  if Ascii.eqb c "." && negb (dots_of w =? -1) then dots_of w + 1 else -1.
Proof.
  unfold dots_of. rewrite forallb_app. simpl.
  destruct (forallb _ w); simpl.
  - pose proof (len_nonneg w).
    destruct (Z.eqb_spec (JS.len w) (-1)); [lia|].
    destruct (Ascii.eqb c "."); simpl; [|reflexivity].
    rewrite len_app. reflexivity.
  - rewrite andb_false_r. reflexivity.
Qed.

(** A character that is not a separator extends the pending text. *)
Lemma norm_step_char (segs : list jstr) (w : jstr) (c0 c : ascii) :
  Path.isPosixPathSeparator c = false ->
  Path.norm_step false (abs segs w c0) c = abs segs (w ++ [c]) c.
Proof.
  intros Hc. unfold Path.norm_step. rewrite Hc.
  unfold abs; simpl. rewrite dots_of_snoc. unfold Path.CHAR_DOT.
  destruct (Ascii.eqb c "." && negb (dots_of w =? -1)); reflexivity.
Qed.

Lemma ends_with_dots (p : jstr) (x y : ascii) :
  JS.is_code (JS.charCodeAt (p ++ [x; y]) (JS.len (p ++ [x; y]) - 1)) "." = Ascii.eqb y "."
  /\ JS.is_code (JS.charCodeAt (p ++ [x; y]) (JS.len (p ++ [x; y]) - 2)) "." = Ascii.eqb x ".".
Proof.
  rewrite len_app.
  replace (JS.len p + JS.len [x; y] - 1) with (JS.len p + 1) by (unfold JS.len; simpl; lia).
  replace (JS.len p + JS.len [x; y] - 2) with (JS.len p + 0) by (unfold JS.len; simpl; lia).
  rewrite !charCodeAt_app_r by lia. split; reflexivity.
Qed.

(** The test guarding the pop never fails: the last segment in [res] is
    not [".."]. *)
Lemma last_not_dotdot (p a : jstr) :
  a <> ".." ->
  let r := p ++ a in
  (JS.len r <? 2) || negb (JS.len a =? 2)
  || negb (JS.is_code (JS.charCodeAt r (JS.len r - 1)) Path.CHAR_DOT)
  || negb (JS.is_code (JS.charCodeAt r (JS.len r - 2)) Path.CHAR_DOT) = true.
Proof.
  intros Ha r. subst r.
  destruct (Z.eqb_spec (JS.len a) 2) as [E|E];
    [|simpl; rewrite orb_true_r; reflexivity].
  destruct a as [|x [|y [|z a]]]; try (unfold JS.len in E; simpl in E; lia).
  unfold Path.CHAR_DOT.
  destruct (ends_with_dots p x y) as [-> ->].
  destruct (Ascii.eqb_spec y "."); destruct (Ascii.eqb_spec x "."); subst;
    simpl; rewrite ?orb_true_r; try reflexivity.
  contradiction Ha; reflexivity.
Qed.

(** A separator after [".."] pops the last segment. *)
Lemma on_separator_pop (segs : list jstr) (c0 c : ascii) :
  Forall good segs ->
  Path.on_separator false (abs segs ".." c0) c = abs (removelast segs) [] c.
Proof.
  intros Hg. unfold Path.on_separator, abs. cbn [Path.res Path.seg Path.dots Path.lastSegmentLength].
  change (dots_of "..") with 2. cbn [list_ascii_of_string Z.eqb Pos.eqb].
  destruct (snoc_cases segs) as [->|(init & a & ->)]; [reflexivity|].
  rewrite removelast_last, last_last.
  pose proof Hg as Hg'.
  apply Forall_app in Hg' as [Hi Ha]. inversion Ha as [|? ? (Hne & Hs & _ & Hdd) _]; subst.
  destruct init as [|b init'].
  - cbn [app join].
    pose proof (last_not_dotdot [] a Hdd) as Hc. cbn [app] in Hc. rewrite Hc.
    destruct (Z.ltb_spec 2 (JS.len a)).
    + rewrite lastIndexOf_absent by exact Hs. reflexivity.
    + destruct (Z.eqb_spec (JS.len a) 0) as [E|E]; [|reflexivity].
      destruct a as [|x a']; [contradiction|].
      rewrite len_cons in E. pose proof (len_nonneg a'). lia.
  - rewrite join_snoc by discriminate.
    pose proof (last_not_dotdot (join (b :: init') ++ "/") a Hdd) as Hc.
    cbv zeta in Hc. rewrite <- app_assoc in Hc. rewrite Hc.
    assert (Hj : join (b :: init') <> []) by (apply join_nonempty; [exact Hi|discriminate]).
    assert (Hl : 2 < JS.len (join (b :: init') ++ "/" ++ a)).
    { rewrite len_app. change ("/" ++ a) with ("/"%char :: a). rewrite len_cons.
      destruct (join (b :: init')) as [|y j]; [contradiction|]. rewrite len_cons.
      destruct a as [|x a']; [contradiction|]. rewrite len_cons.
      pose proof (len_nonneg j). pose proof (len_nonneg a'). lia. }
    destruct (Z.ltb_spec 2 (JS.len (join (b :: init') ++ "/" ++ a))); [|lia].
    change ("/" ++ a) with ("/"%char :: a).
    unfold Path.CHAR_FORWARD_SLASH.
    rewrite lastIndexOf_app by exact Hs.
    pose proof (len_nonneg (join (b :: init'))).
    destruct (Z.eqb_spec (JS.len (join (b :: init'))) (-1)); [lia|].
    rewrite sliceTo_app. rewrite join_last_len by exact Hi. reflexivity.
Qed.

(** A separator closes the pending text: [seg_step] on the segments. *)
Lemma on_separator_abs (segs : list jstr) (w : jstr) (c0 c : ascii) :
  Forall good segs ->
  Path.on_separator false (abs segs w c0) c = abs (seg_step segs w) [] c.
Proof.
  intros Hg.
  destruct (dots_of_cases w) as [[-> _]|[[-> _]|(H1 & H2 & D1 & D2)]].
  - reflexivity.
  - apply on_separator_pop; exact Hg.
  - unfold Path.on_separator, seg_step, abs.
    cbn [Path.res Path.seg Path.dots Path.lastSegmentLength].
    destruct w as [|x w']; [reflexivity|].
    destruct (Z.eqb_spec (dots_of (x :: w')) 1); [contradiction|].
    destruct (Z.eqb_spec (dots_of (x :: w')) 2); [contradiction|].
    apply str_eqb_neq in H1, H2. rewrite H1, H2.
    cbn [JS.str_eqb orb]. rewrite last_last.
    destruct segs as [|a rest]; [reflexivity|].
    rewrite join_snoc by discriminate.
    destruct (join (a :: rest)) eqn:E; [|reflexivity].
    exfalso. revert E. apply join_nonempty; [exact Hg|discriminate].
Qed.

Lemma good_seg_step (segs : list jstr) (w : jstr) :
  Forall good segs -> ~ In "/"%char w -> Forall good (seg_step segs w).
Proof.
  intros Hg Hs. unfold seg_step.
  destruct (JS.str_eqb w []) eqn:E0; cbn [orb]; [exact Hg|].
  destruct (JS.str_eqb w ".") eqn:E1; [exact Hg|].
  destruct (JS.str_eqb w "..") eqn:E2.
  - destruct (snoc_cases segs) as [->|(init & a & ->)]; [constructor|].
    rewrite removelast_last. apply Forall_app in Hg as [Hi _]. exact Hi.
  - apply Forall_app; split; [exact Hg|].
    constructor; [|constructor].
    apply str_eqb_neq in E0, E1, E2. repeat split; assumption.
Qed.

Lemma not_sep_not_in (w : jstr) (c : ascii) :
  ~ In "/"%char w -> Path.isPosixPathSeparator c = false -> ~ In "/"%char (w ++ [c]).
Proof.
  intros Hw Hc Hin. apply in_app_or in Hin as [Hin|[E|[]]]; [exact (Hw Hin)|].
  subst c. discriminate Hc.
Qed.

Lemma afold_good (s : jstr) : forall segs w,
  Forall good segs -> ~ In "/"%char w ->
  Forall good (fst (afold segs w s)) /\ ~ In "/"%char (snd (afold segs w s)).
Proof.
  induction s as [|c s IH]; intros segs w Hg Hw; simpl; [split; assumption|].
  destruct (Path.isPosixPathSeparator c) eqn:Hc.
  - apply IH; [apply good_seg_step; assumption|intros []].
  - apply IH; [exact Hg|apply not_sep_not_in; assumption].
Qed.

Lemma last_cons_default (c d : ascii) (s : jstr) : last (c :: s) d = last s c.
Proof.
  revert c d; induction s as [|x s IH]; intros c d; [reflexivity|].
  change (last (c :: x :: s) d) with (last (x :: s) d).
  rewrite (IH x d), (IH x c). reflexivity.
Qed.

(** The loop of [normalizeString] computes [afold]. *)
Lemma fold_abs (s : jstr) : forall segs w c0,
  Forall good segs -> ~ In "/"%char w ->
  fold_left (Path.norm_step false) s (abs segs w c0)
  = abs (fst (afold segs w s)) (snd (afold segs w s)) (last s c0).
Proof.
  induction s as [|c s IH]; intros segs w c0 Hg Hw; [reflexivity|].
  rewrite last_cons_default. cbn [fold_left afold].
  destruct (Path.isPosixPathSeparator c) eqn:Hc.
  - unfold Path.norm_step at 2. rewrite Hc.
    rewrite on_separator_abs by exact Hg.
    apply IH; [apply good_seg_step; assumption|intros []].
  - rewrite norm_step_char by exact Hc.
    apply IH; [exact Hg|apply not_sep_not_in; assumption].
Qed.

Lemma afold_app (s1 s2 : jstr) : forall segs w,
  afold segs w (s1 ++ s2) = afold (fst (afold segs w s1)) (snd (afold segs w s1)) s2.
Proof.
  induction s1 as [|c s1 IH]; intros segs w; simpl; [reflexivity|].
  destruct (Path.isPosixPathSeparator c); apply IH.
Qed.

Lemma afold_text (u : jstr) : forall segs w,
  ~ In "/"%char u -> afold segs w u = (segs, w ++ u).
Proof.
  induction u as [|c u IH]; intros segs w Hu; simpl.
  - rewrite app_nil_r; reflexivity.
  - destruct (Ascii.eqb_spec c Path.CHAR_FORWARD_SLASH) as [->|Hc].
    + exfalso; apply Hu; left; reflexivity.
    + unfold Path.isPosixPathSeparator.
      destruct (Ascii.eqb_spec c Path.CHAR_FORWARD_SLASH); [contradiction|].
      rewrite IH by (intros Hin; apply Hu; right; exact Hin).
      rewrite <- app_assoc. reflexivity.
Qed.

Lemma afold_slash (s : jstr) (segs : list jstr) (w : jstr) :
  afold segs w (s ++ "/") = (seg_step (fst (afold segs w s)) (snd (afold segs w s)), []).
Proof. rewrite afold_app. reflexivity. Qed.

Lemma afold_segment (u s : jstr) (segs : list jstr) :
  ~ In "/"%char u -> afold segs [] (u ++ "/" ++ s) = afold (seg_step segs u) [] s.
Proof.
  intros Hu. rewrite afold_app, (afold_text u segs []) by exact Hu. reflexivity.
Qed.

Lemma afold_last_sep (s : jstr) (segs : list jstr) (w : jstr) (c0 : ascii) :
  Path.isPosixPathSeparator c0 = false ->
  Path.isPosixPathSeparator (last s c0) = true ->
  snd (afold segs w s) = [].
Proof.
  intros H0 Hl. destruct (snoc_cases s) as [->|(s0 & c & ->)].
  - simpl in Hl. congruence.
  - rewrite last_last in Hl. rewrite afold_app. simpl. rewrite Hl. reflexivity.
Qed.

Lemma seg_step_nil (segs : list jstr) : seg_step segs [] = segs.
Proof. reflexivity. Qed.

Lemma seg_step_good (segs : list jstr) (w : jstr) :
  good w -> seg_step segs w = segs ++ [w].
Proof.
  intros (H0 & _ & H1 & H2). unfold seg_step.
  apply str_eqb_neq in H0, H1, H2. rewrite H0, H1, H2. reflexivity.
Qed.

(** [normalizeString] below the root: the segments that survive. *)
Theorem normalizeString_segs (s : jstr) :
  Path.normalizeString s false = join (normalize_segs s).
Proof.
  unfold Path.normalizeString, normalize_segs.
  change Path.norm_init with (abs [] [] zero).
  rewrite fold_abs by (try constructor; intros []).
  destruct (afold [] [] s) as [segs w] eqn:E. cbn [fst snd].
  pose proof (afold_good s [] [] (Forall_nil _) (fun H => H)) as [Hg Hw].
  rewrite E in Hg, Hw. cbn [fst snd] in Hg, Hw.
  cbn [abs Path.code].
  destruct (Path.isPosixPathSeparator (last s zero)) eqn:Hl.
  - pose proof (afold_last_sep s [] [] zero eq_refl Hl) as Hnil.
    rewrite E in Hnil. cbn [snd] in Hnil. subst w. reflexivity.
  - rewrite on_separator_abs by exact Hg. reflexivity.
Qed.

Lemma normalize_segs_good (s : jstr) : Forall good (normalize_segs s).
Proof.
  unfold normalize_segs.
  pose proof (afold_good s [] [] (Forall_nil _) (fun H => H)) as [Hg Hw].
  destruct (afold [] [] s) as [segs w]. apply good_seg_step; assumption.
Qed.

Lemma afold_closed (s : jstr) : afold [] [] (s ++ "/") = (normalize_segs s, []).
Proof.
  rewrite afold_slash. unfold normalize_segs.
  destruct (afold [] [] s); reflexivity.
Qed.

Lemma normalize_segs_slash (s : jstr) : normalize_segs (s ++ "/") = normalize_segs s.
Proof.
  unfold normalize_segs at 1. rewrite afold_closed. reflexivity.
Qed.

Lemma normalize_segs_extend (r c : jstr) :
  normalize_segs (r ++ "/" ++ c) = extend (normalize_segs r) c.
Proof.
  unfold normalize_segs at 1, extend.
  rewrite app_assoc, afold_app, afold_closed. cbn [fst snd].
  destruct (afold (normalize_segs r) [] c); reflexivity.
Qed.

Lemma afold_join (segs : list jstr) : forall acc,
  Forall good segs -> afold acc [] (join segs ++ "/") = (acc ++ segs, []).
Proof.
  induction segs as [|a rest IH]; intros acc Hg.
  - simpl. rewrite app_nil_r. reflexivity.
  - inversion Hg as [|? ? Ha Hr]; subst.
    pose proof Ha as (_ & Hs & _).
    destruct rest as [|b rest'].
    + cbn [join]. rewrite afold_app, (afold_text a acc []) by exact Hs.
      cbn [fst snd app list_ascii_of_string afold].
      change (Path.isPosixPathSeparator "/") with true. cbv iota.
      rewrite seg_step_good by exact Ha. reflexivity.
    + change (join (a :: b :: rest')) with (a ++ "/" ++ join (b :: rest')).
      rewrite <- !app_assoc. rewrite afold_segment by exact Hs.
      rewrite seg_step_good by exact Ha.
      rewrite IH by exact Hr. rewrite <- app_assoc. reflexivity.
Qed.

(** Normalising a normalised absolute path changes nothing. *)
Lemma normalize_segs_join (segs : list jstr) :
  Forall good segs -> normalize_segs ("/" ++ join segs) = segs.
Proof.
  intros Hg. rewrite <- normalize_segs_slash.
  unfold normalize_segs. rewrite <- app_assoc. cbn [app list_ascii_of_string afold].
  change (Path.isPosixPathSeparator "/") with true. cbv iota.
  rewrite seg_step_nil.
  change ("/"%char :: []) with (list_ascii_of_string "/").
  rewrite afold_join by exact Hg. reflexivity.
Qed.

(** ** [path.resolve] *)

Lemma resolve_absolute (cwd r : jstr) :
  Path.isAbsolute r = true ->
  Path.resolve cwd [JString r] = Ok ("/" ++ join (normalize_segs r)).
Proof.
  intros Hr. unfold Path.resolve.
  cbn [rev app Path.resolve_loop Path.validateString bind].
  destruct r as [|x r']; [discriminate|].
  rewrite Hr. cbn [bind negb]. rewrite normalizeString_segs.
  change ("/" ++ []) with (list_ascii_of_string "/").
  rewrite normalize_segs_slash. reflexivity.
Qed.

Lemma extend_nil (segs : list jstr) : extend segs [] = segs.
Proof. reflexivity. Qed.

Lemma resolve_under (cwd r c : jstr) :
  Path.isAbsolute r = true -> Path.isAbsolute c = false ->
  Path.resolve cwd [JString r; JString c]
  = Ok ("/" ++ join (extend (normalize_segs r) c)).
Proof.
  intros Hr Hc. unfold Path.resolve.
  cbn [rev app Path.resolve_loop Path.validateString bind].
  destruct r as [|x r']; [discriminate|].
  destruct c as [|y c'].
  - rewrite Hr. cbn [bind negb]. rewrite normalizeString_segs.
    change ("/" ++ []) with (list_ascii_of_string "/").
    rewrite normalize_segs_slash, extend_nil. reflexivity.
  - rewrite Hc, Hr. cbn [bind negb]. rewrite normalizeString_segs.
    change ("/" ++ []) with (list_ascii_of_string "/").
    replace ((x :: r') ++ "/" ++ (y :: c') ++ "/")
      with (((x :: r') ++ "/" ++ (y :: c')) ++ "/")
      by (rewrite <- !app_assoc; reflexivity).
    rewrite normalize_segs_slash, normalize_segs_extend. reflexivity.
Qed.

Lemma resolve_absolute_candidate (cwd c : jstr) (v : value) :
  Path.isAbsolute c = true ->
  Path.resolve cwd [v; JString c] = Ok ("/" ++ join (normalize_segs c)).
Proof.
  intros Hc. unfold Path.resolve.
  cbn [rev app Path.resolve_loop Path.validateString bind].
  destruct c as [|y c']; [discriminate|].
  rewrite Hc. cbn [bind negb]. rewrite normalizeString_segs.
  change ("/" ++ []) with (list_ascii_of_string "/").
  rewrite normalize_segs_slash. reflexivity.
Qed.

Lemma resolve_resolved (cwd : jstr) (segs : list jstr) :
  Forall good segs ->
  Path.resolve cwd [JString ("/" ++ join segs)] = Ok ("/" ++ join segs).
Proof.
  intros Hg. rewrite resolve_absolute by reflexivity.
  rewrite normalize_segs_join by exact Hg. reflexivity.
Qed.

(** [path.resolve] never throws on strings. *)
Lemma resolve_loop_strings (cwd : jstr) (l : list jstr) : forall acc,
  exists pr, Path.resolve_loop cwd (map JString l) acc = Ok pr.
Proof.
  induction l as [|p l IH]; intros acc; simpl.
  - destruct cwd; eauto.
  - destruct p as [|x p']; [apply IH|].
    destruct (Path.isAbsolute (x :: p')); [eauto|apply IH].
Qed.

Lemma resolve_strings (cwd : jstr) (l : list jstr) :
  exists r, Path.resolve cwd (map JString l) = Ok r.
Proof.
  unfold Path.resolve. rewrite <- map_rev.
  destruct (resolve_loop_strings cwd (rev l) []) as [[rp ra] ->].
  cbn [bind]. destruct ra; eauto.
Qed.

(** ** [path.relative] on resolved paths *)

Lemma charCodeAt_cons (c : ascii) (s : jstr) (k : Z) :
  0 <= k -> JS.charCodeAt (c :: s) (1 + k) = JS.charCodeAt s k.
Proof.
  intros Hk. change (c :: s) with ([c] ++ s).
  change 1 with (JS.len [c]). apply charCodeAt_app_r. exact Hk.
Qed.

Lemma common_loop_bounds (from to : jstr) (n : nat) : forall i lcs,
  -1 <= lcs < i ->
  let r := Path.common_loop from to n i lcs in
  i <= fst r <= i + Z.of_nat n /\ -1 <= snd r < fst r.
Proof.
  induction n as [|n IH]; intros i lcs H; cbn [Path.common_loop].
  - cbn [fst snd]. lia.
  - destruct (negb _); [cbn [fst snd]; lia|].
    specialize (IH (i + 1)
      (if JS.is_code (JS.charCodeAt from (1 + i)) Path.CHAR_FORWARD_SLASH then i else lcs)).
    cbv zeta in IH.
    destruct IH as [H1 H2]; [destruct (JS.is_code _ _); lia|].
    split; [lia|exact H2].
Qed.

Lemma common_loop_complete (from to : jstr) (n : nat) : forall i lcs,
  (forall k, 0 <= k < Z.of_nat n ->
     JS.code_eqb (JS.charCodeAt from (1 + (i + k))) (JS.charCodeAt to (1 + (i + k))) = true) ->
  fst (Path.common_loop from to n i lcs) = i + Z.of_nat n.
Proof.
  induction n as [|n IH]; intros i lcs H; cbn [Path.common_loop].
  - cbn [fst]. lia.
  - pose proof (H 0 ltac:(lia)) as H0. rewrite Z.add_0_r in H0. rewrite H0.
    cbn [negb]. rewrite IH; [lia|].
    intros k Hk. replace (i + 1 + k) with (i + (k + 1)) by lia. apply H. lia.
Qed.

Lemma common_loop_sound (from to : jstr) (n : nat) : forall i lcs,
  0 <= i ->
  fst (Path.common_loop from to n i lcs) = i + Z.of_nat n ->
  forall k, 0 <= k < Z.of_nat n ->
    JS.code_eqb (JS.charCodeAt from (1 + (i + k))) (JS.charCodeAt to (1 + (i + k))) = true.
Proof.
  induction n as [|n IH]; intros i lcs Hi H k Hk; [lia|].
  cbn [Path.common_loop] in H.
  destruct (JS.code_eqb (JS.charCodeAt from (1 + i)) (JS.charCodeAt to (1 + i))) eqn:E;
    cbn [negb] in H; [|cbn [fst] in H; lia].
  destruct (Z.eq_dec k 0) as [->|Hk0]; [rewrite Z.add_0_r; exact E|].
  replace (i + k) with ((i + 1) + (k - 1)) by lia.
  eapply IH; [lia| |lia].
  rewrite H. lia.
Qed.

Lemma prefix_of_codes (f : jstr) : forall t,
  (forall k, 0 <= k < JS.len f ->
     JS.code_eqb (JS.charCodeAt f k) (JS.charCodeAt t k) = true) ->
  exists x, t = f ++ x.
Proof.
  induction f as [|c f IH]; intros t H; [exists t; reflexivity|].
  pose proof (len_nonneg f) as Hf.
  pose proof (H 0 ltac:(rewrite len_cons; lia)) as H0.
  destruct t as [|d t]; [discriminate|].
  cbn in H0. apply Ascii.eqb_eq in H0. subst d.
  destruct (IH t) as [x ->]; [|exists x; reflexivity].
  intros k Hk. specialize (H (1 + k) ltac:(rewrite len_cons; lia)).
  rewrite !charCodeAt_cons in H by lia. exact H.
Qed.

Lemma startsWith_app_l (s p x : jstr) :
  JS.startsWith s p = true -> JS.startsWith (s ++ x) p = true.
Proof.
  intros H. apply startsWith_inv in H as [t ->].
  rewrite <- app_assoc. apply startsWith_app.
Qed.

(** The second loop of [relative] writes [".."] first whenever it runs
    up to [fromEnd]. *)
Lemma up_loop_dotdot (from : jstr) (fromEnd : Z) (n : nat) : forall i out,
  (out = [] -> (1 <= n)%nat /\ i + Z.of_nat n = fromEnd + 1) ->
  (out <> [] -> JS.startsWith out ".." = true) ->
  JS.startsWith (Path.up_loop from fromEnd n i out) ".." = true.
Proof.
  induction n as [|n IH]; intros i out H0 H1; cbn [Path.up_loop].
  - destruct out as [|c out]; [destruct (H0 eq_refl); lia|].
    apply H1; discriminate.
  - apply IH.
    + intros E. destruct out as [|c out].
      * destruct (H0 eq_refl) as [_ Hn].
        destruct (Z.eqb_spec i fromEnd); [discriminate|].
        destruct (JS.is_code _ _); [discriminate|]. lia.
      * destruct ((i =? fromEnd) || _); discriminate.
    + intros Hne. destruct out as [|c out].
      * destruct ((i =? fromEnd) || _); [reflexivity|].
        contradiction Hne; reflexivity.
      * specialize (H1 ltac:(discriminate)).
        destruct ((i =? fromEnd) || _); [apply startsWith_app_l|]; exact H1.
Qed.

Lemma relative_tail_dotdot (from to : jstr) (l : Z) :
  -1 <= l < JS.len from - 1 ->
  JS.startsWith
    (Path.up_loop from (JS.len from) (Z.to_nat (JS.len from + 1 - (1 + l + 1)))
                  (1 + l + 1) []
     ++ JS.sliceFrom to (1 + l)) ".." = true.
Proof.
  intros Hl. apply startsWith_app_l. apply up_loop_dotdot.
  - intros _. split; lia.
  - intros H; contradiction H; reflexivity.
Qed.

(** Soundness of [relative] as a containment test: a result that does not
    start with [".."] is obtained only when [from] is the root or [to]
    extends [from] by a slash and more. *)
Lemma relative_resolved_sound (F T : jstr) :
  JS.startsWith (Path.relative_resolved ("/" ++ F) ("/" ++ T)) ".." = false ->
  F = [] \/ exists J, T = F ++ "/" ++ J.
Proof.
  unfold Path.relative_resolved. cbv zeta.
  set (from := "/" ++ F). set (to := "/" ++ T).
  assert (Hfrom : JS.len from = 1 + JS.len F) by reflexivity || (unfold from; rewrite len_app; reflexivity).
  assert (Hto : JS.len to = 1 + JS.len T) by (unfold to; rewrite len_app; reflexivity).
  pose proof (len_nonneg F) as HF. pose proof (len_nonneg T) as HT.
  set (length := if JS.len from - 1 <? JS.len to - 1 then JS.len from - 1 else JS.len to - 1).
  assert (Hlen : length = Z.min (JS.len F) (JS.len T)).
  { unfold length. destruct (Z.ltb_spec (JS.len from - 1) (JS.len to - 1)); lia. }
  pose proof (common_loop_bounds from to (Z.to_nat length) 0 (-1) ltac:(lia)) as B.
  cbv zeta in B.
  pose proof (common_loop_sound from to (Z.to_nat length) 0 (-1) ltac:(lia)) as S.
  destruct (Path.common_loop from to (Z.to_nat length) 0 (-1)) as [i lcs].
  cbn [fst snd] in B, S. destruct B as [B1 B2].
  destruct (Z.eqb_spec i length) as [Ei|Ei];
    [|intros H; rewrite relative_tail_dotdot in H by lia; discriminate].
  destruct (Z.ltb_spec length (JS.len to - 1)) as [Lt|Lt].
  - destruct (JS.is_code (JS.charCodeAt to (1 + i)) Path.CHAR_FORWARD_SLASH) eqn:Es.
    + intros _. right.
      assert (Hi : i = JS.len F) by lia.
      destruct (prefix_of_codes F T) as [x Hx].
      { intros k Hk. specialize (S ltac:(lia) k ltac:(lia)).
        unfold from, to in S. cbn [app list_ascii_of_string] in S.
        rewrite Z.add_0_l in S. rewrite !charCodeAt_cons in S by lia. exact S. }
      subst T. unfold to in Es. cbn [app list_ascii_of_string] in Es.
      rewrite charCodeAt_cons in Es by lia. rewrite Hi in Es.
      rewrite <- (Z.add_0_r (JS.len F)) in Es. rewrite charCodeAt_app_r in Es by lia.
      destruct x as [|c x]; [discriminate|].
      cbn in Es. apply Ascii.eqb_eq in Es. subst c.
      exists x; reflexivity.
    + destruct (Z.eqb_spec i 0) as [E0|E0].
      * intros _. left. destruct F as [|c F']; [reflexivity|].
        pose proof (len_cons c F'). pose proof (len_nonneg F'). lia.
      * intros H; rewrite relative_tail_dotdot in H by lia; discriminate.
  - destruct (Z.ltb_spec length (JS.len from - 1)) as [Lf|Lf].
    + destruct (JS.is_code _ _).
      * intros H; rewrite relative_tail_dotdot in H by lia; discriminate.
      * destruct (Z.eqb_spec i 0);
          intros H; rewrite relative_tail_dotdot in H by lia; discriminate.
    + intros H; rewrite relative_tail_dotdot in H by lia; discriminate.
Qed.

Lemma relative_resolved_below (F J : jstr) :
  Path.relative_resolved ("/" ++ F) ("/" ++ F ++ "/" ++ J) = J.
Proof.
  unfold Path.relative_resolved. cbv zeta.
  set (from := "/" ++ F). set (to := "/" ++ F ++ "/" ++ J).
  assert (Hfrom : JS.len from = 1 + JS.len F) by (unfold from; rewrite len_app; reflexivity).
  assert (Hto : JS.len to = 1 + JS.len F + 1 + JS.len J).
  { unfold to. rewrite !len_app. change (JS.len "/") with 1. lia. }
  pose proof (len_nonneg F) as HF. pose proof (len_nonneg J) as HJ.
  destruct (Z.ltb_spec (JS.len from - 1) (JS.len to - 1)); [|lia].
  pose proof (common_loop_complete from to (Z.to_nat (JS.len from - 1)) 0 (-1)) as C.
  destruct (Path.common_loop from to (Z.to_nat (JS.len from - 1)) 0 (-1)) as [i lcs].
  cbn [fst] in C. rewrite C.
  2:{ intros k Hk. unfold from, to. cbn [app list_ascii_of_string].
      rewrite Z.add_0_l, !charCodeAt_cons by lia.
      rewrite charCodeAt_app_l by lia.
      destruct (charCodeAt_some F k ltac:(lia)) as [c ->]. apply code_eqb_refl. }
  destruct (Z.eqb_spec (0 + Z.of_nat (Z.to_nat (JS.len from - 1))) (JS.len from - 1)); [|lia].
  destruct (Z.ltb_spec (JS.len from - 1) (JS.len to - 1)); [|lia].
  replace (0 + Z.of_nat (Z.to_nat (JS.len from - 1))) with (JS.len F) by lia.
  unfold to at 1. cbn [app list_ascii_of_string].
  rewrite charCodeAt_cons by lia.
  rewrite <- (Z.add_0_r (JS.len F)) at 1. rewrite charCodeAt_app_r by lia.
  cbn [JS.charCodeAt Z.ltb Z.compare Z.to_nat nth_error JS.is_code JS.code_eqb].
  unfold Path.CHAR_FORWARD_SLASH. rewrite Ascii.eqb_refl.
  unfold to. replace (1 + JS.len F + 1) with (JS.len ("/" ++ F ++ "/")).
  2:{ rewrite !len_app. change (JS.len "/") with 1. lia. }
  replace ("/" ++ F ++ "/" ++ J) with (("/" ++ F ++ "/") ++ J)
    by (rewrite <- !app_assoc; reflexivity).
  apply sliceFrom_app.
Qed.

Lemma relative_resolved_root (c : ascii) (J : jstr) :
  c <> "/"%char ->
  Path.relative_resolved "/" ("/" ++ c :: J) = c :: J.
Proof.
  intros Hc. unfold Path.relative_resolved. cbv zeta.
  change (JS.len "/") with 1.
  assert (Hto : JS.len ("/" ++ c :: J) = 2 + JS.len J).
  { cbn [app list_ascii_of_string]. rewrite !len_cons. lia. }
  pose proof (len_nonneg J) as HJ. rewrite Hto.
  change (1 - 1) with 0.
  set (m := 2 + JS.len J - 1). assert (Hm : 0 < m) by (unfold m; lia).
  destruct (Z.ltb_spec 0 m); [|lia].
  change (Z.to_nat 0) with 0%nat. cbn [Path.common_loop].
  change (0 =? 0) with true. cbv iota.
  change (JS.charCodeAt ("/" ++ c :: J) (1 + 0)) with (Some c).
  change (JS.sliceFrom ("/" ++ c :: J) (1 + 0)) with (c :: J).
  unfold JS.is_code, JS.code_eqb, Path.CHAR_FORWARD_SLASH.
  destruct (Ascii.eqb_spec c "/"); [contradiction|].
  destruct (Z.ltb_spec 0 m); [reflexivity|lia].
Qed.

Lemma join_app (fs rest : list jstr) :
  fs <> [] -> rest <> [] -> join (fs ++ rest) = join fs ++ "/" ++ join rest.
Proof.
  intros Hf Hr. induction fs as [|a fs IH]; [contradiction|].
  destruct fs as [|b fs'].
  - destruct rest; [contradiction|reflexivity].
  - change (join ((a :: b :: fs') ++ rest))
      with (a ++ "/" ++ join ((b :: fs') ++ rest)).
    rewrite IH by discriminate.
    change (join (a :: b :: fs')) with (a ++ "/" ++ join (b :: fs')).
    rewrite <- !app_assoc. reflexivity.
Qed.

Lemma join_head_not_slash (rest : list jstr) :
  Forall good rest -> rest <> [] ->
  exists c J, join rest = c :: J /\ c <> "/"%char.
Proof.
  intros Hg Hne. destruct rest as [|a rest]; [contradiction|].
  inversion Hg as [|? ? (Ha & Hs & _) _]; subst.
  destruct a as [|c a']; [contradiction|].
  assert (Hc : c <> "/"%char) by (intros ->; apply Hs; left; reflexivity).
  destruct rest; simpl; eauto.
Qed.

(** [relative] from a directory to a path below it: the path that was
    appended. *)
Lemma relative_resolved_inside (fs rest : list jstr) :
  Forall good rest -> rest <> [] ->
  Path.relative_resolved ("/" ++ join fs) ("/" ++ join (fs ++ rest)) = join rest.
Proof.
  intros Hg Hne. destruct fs as [|a fs'].
  - destruct (join_head_not_slash rest Hg Hne) as (c & J & E & Hc).
    cbn [app join]. rewrite E. apply (relative_resolved_root c J Hc).
  - rewrite join_app by (assumption || discriminate).
    apply relative_resolved_below.
Qed.

(** ** The guard *)

Lemma extend_good (segs : list jstr) (c : jstr) :
  Forall good segs -> Forall good (extend segs c).
Proof.
  intros Hg. unfold extend.
  destruct (afold_good c segs [] Hg (fun H => H)) as [H1 H2].
  apply good_seg_step; assumption.
Qed.

(** The path the guard resolves, as segments. *)
Lemma resolve_shape (cwd r c : jstr) :
  Path.isAbsolute r = true ->
  exists ts, Forall good ts
    /\ Path.resolve cwd [JString r; JString c] = Ok ("/" ++ join ts)
    /\ ts = (if Path.isAbsolute c then normalize_segs c else extend (normalize_segs r) c).
Proof.
  intros Hr. destruct (Path.isAbsolute c) eqn:Hc.
  - exists (normalize_segs c). split; [apply normalize_segs_good|].
    split; [apply resolve_absolute_candidate; exact Hc|reflexivity].
  - exists (extend (normalize_segs r) c).
    split; [apply extend_good, normalize_segs_good|].
    split; [apply resolve_under; assumption|reflexivity].
Qed.

Lemma relative_of_resolved (cwd r : jstr) (ts : list jstr) :
  Path.isAbsolute r = true -> Forall good ts ->
  Path.relative cwd (JString r) (JString ("/" ++ join ts))
  = Ok (if JS.str_eqb r ("/" ++ join ts) then []
        else if JS.str_eqb ("/" ++ join (normalize_segs r)) ("/" ++ join ts) then []
        else Path.relative_resolved ("/" ++ join (normalize_segs r)) ("/" ++ join ts)).
Proof.
  intros Hr Hg. unfold Path.relative. cbn [Path.validateString bind].
  destruct (JS.str_eqb r ("/" ++ join ts)); [reflexivity|].
  rewrite resolve_absolute by exact Hr. cbn [bind].
  rewrite resolve_resolved by exact Hg. cbn [bind].
  destruct (JS.str_eqb _ _); reflexivity.
Qed.

Lemma verdict_truthy (rel : jstr) :
  truthy (verdict rel) = true
  <-> rel <> [] /\ JS.startsWith rel ".." = false /\ Path.isAbsolute rel = false.
Proof.
  unfold verdict. destruct rel as [|c rel']; simpl.
  - split; [discriminate|intros [H _]; contradiction].
  - rewrite andb_true_iff, !negb_true_iff.
    split; [intros [H1 H2]; repeat split; auto; discriminate|intros (_ & H1 & H2); auto].
Qed.

Lemma isSafePath_unfold (proc : Process) (rootPath : value) (requestedPath : jstr) :
  isSafePath proc rootPath requestedPath
  = (pathToServe <- Path.resolve (cwd proc) [rootPath; JString requestedPath] ;;
     relativePath <- Path.relative (cwd proc) rootPath (JString pathToServe) ;;
     Ok (verdict relativePath)).
Proof. reflexivity. Qed.

(** On a string root the guard always returns. *)
Lemma isSafePath_total (proc : Process) (r c : jstr) :
  exists resolved rel,
    Path.resolve (cwd proc) [JString r; JString c] = Ok resolved
    /\ Path.relative (cwd proc) (JString r) (JString resolved) = Ok rel
    /\ isSafePath proc (JString r) c = Ok (verdict rel).
Proof.
  destruct (resolve_strings (cwd proc) [r; c]) as [resolved Hres].
  cbn [map] in Hres.
  assert (exists rel, Path.relative (cwd proc) (JString r) (JString resolved) = Ok rel)
    as [rel Hrel].
  { unfold Path.relative. cbn [Path.validateString bind].
    destruct (JS.str_eqb r resolved); [eauto|].
    destruct (resolve_strings (cwd proc) [r]) as [f' Hf].
    destruct (resolve_strings (cwd proc) [resolved]) as [t' Ht].
    cbn [map] in Hf, Ht. rewrite Hf, Ht. cbn [bind].
    destruct (JS.str_eqb f' t'); eauto. }
  exists resolved, rel. repeat split; try assumption.
  rewrite isSafePath_unfold, Hres. cbn [bind]. rewrite Hrel. reflexivity.
Qed.

Lemma app_neq_self {A : Type} (l rest : list A) : rest <> [] -> l ++ rest <> l.
Proof.
  intros Hne E. apply Hne.
  apply (app_inv_head l). rewrite app_nil_r. exact E.
Qed.

(** Acceptance: a candidate that only adds segments below the root. *)
Lemma isSafePath_accepts (proc : Process) (r c : jstr) (rest : list jstr) :
  Path.isAbsolute r = true -> Path.isAbsolute c = false ->
  extend (normalize_segs r) c = normalize_segs r ++ rest ->
  rest <> [] -> Forall good rest ->
  JS.startsWith (join rest) ".." = false ->
  isSafePath proc (JString r) c = Ok (JBool true)
  /\ Path.resolve (cwd proc) [JString r; JString c]
     = Ok ("/" ++ join (normalize_segs r ++ rest)).
Proof.
  intros Hr Hc He Hne Hg Hdd.
  pose proof (normalize_segs_good r) as Hfs.
  assert (Hts : Forall good (normalize_segs r ++ rest))
    by (apply Forall_app; split; assumption).
  assert (Hres : Path.resolve (cwd proc) [JString r; JString c]
                 = Ok ("/" ++ join (normalize_segs r ++ rest)))
    by (rewrite resolve_under, He by assumption; reflexivity).
  split; [|exact Hres].
  rewrite isSafePath_unfold, Hres. cbn [bind].
  rewrite relative_of_resolved by assumption.
  destruct (JS.str_eqb r _) eqn:E1.
  { exfalso. apply str_eqb_eq in E1.
    apply (app_neq_self (normalize_segs r) rest Hne).
    rewrite E1 at 2. rewrite normalize_segs_join by exact Hts. reflexivity. }
  destruct (JS.str_eqb ("/" ++ join (normalize_segs r)) _) eqn:E2.
  { exfalso. apply str_eqb_eq in E2.
    apply (app_neq_self (normalize_segs r) rest Hne).
    rewrite <- (normalize_segs_join (normalize_segs r ++ rest)) by exact Hts.
    rewrite <- E2. apply normalize_segs_join. exact Hfs. }
  cbn [bind]. rewrite relative_resolved_inside by assumption.
  destruct (join_head_not_slash rest Hg Hne) as (x & J & E & Hx).
  unfold verdict. rewrite Hdd. rewrite E. cbn.
  unfold Path.CHAR_FORWARD_SLASH.
  destruct (Ascii.eqb_spec x "/"); [contradiction|reflexivity].
Qed.

(** Soundness: what the guard accepts resolves below the resolved root. *)
Lemma isSafePath_sound (proc : Process) (r c : jstr) (v : value) :
  Path.isAbsolute r = true ->
  isSafePath proc (JString r) c = Ok v -> truthy v = true ->
  exists ts,
    Forall good ts
    /\ Path.resolve (cwd proc) [JString r; JString c] = Ok ("/" ++ join ts)
    /\ ts = (if Path.isAbsolute c then normalize_segs c else extend (normalize_segs r) c)
    /\ (join (normalize_segs r) = []
        \/ exists J, join ts = join (normalize_segs r) ++ "/" ++ J).
Proof.
  intros Hr Hs Hv.
  destruct (resolve_shape (cwd proc) r c Hr) as (ts & Hg & Hres & Hts).
  exists ts. repeat split; try assumption.
  rewrite isSafePath_unfold, Hres in Hs. cbn [bind] in Hs.
  rewrite relative_of_resolved in Hs by assumption. cbn [bind] in Hs.
  injection Hs as <-. apply verdict_truthy in Hv as (Hne & Hdd & _).
  destruct (JS.str_eqb r _); [contradiction Hne; reflexivity|].
  destruct (JS.str_eqb _ _); [contradiction Hne; reflexivity|].
  apply relative_resolved_sound in Hdd. exact Hdd.
Qed.

(** The empty candidate resolves to the root itself and is rejected. *)
Lemma isSafePath_empty (proc : Process) (r : jstr) :
  Path.isAbsolute r = true ->
  isSafePath proc (JString r) [] = Ok (JString []).
Proof.
  intros Hr. rewrite isSafePath_unfold.
  rewrite resolve_under by (exact Hr || reflexivity). rewrite extend_nil.
  cbn [bind]. rewrite relative_of_resolved by (exact Hr || apply normalize_segs_good).
  rewrite (str_eqb_refl ("/" ++ join (normalize_segs r))).
  destruct (JS.str_eqb r _); reflexivity.
Qed.

Lemma has_slash_in (w : jstr) : In "/"%char w -> has_slash w = true.
Proof.
  intros H. apply existsb_exists. exists "/"%char. split; [exact H|reflexivity].
Qed.

Lemma has_slash_false (w : jstr) : has_slash w = false -> ~ In "/"%char w.
Proof. intros H Hin. apply has_slash_in in Hin. congruence. Qed.

Lemma goodb_good (w : jstr) : goodb w = true -> good w.
Proof.
  unfold goodb. rewrite !andb_true_iff, !negb_true_iff.
  intros [[[H0 H1] H2] H3]. repeat split.
  - destruct w; [discriminate|discriminate].
  - apply has_slash_false; exact H1.
  - apply str_eqb_neq; exact H2.
  - apply str_eqb_neq; exact H3.
Qed.

Ltac good_segments :=
  repeat (apply Forall_cons; [apply goodb_good; reflexivity|]); apply Forall_nil.

Lemma app_slash_inv (F : jstr) : forall J u t,
  ~ In "/"%char u -> ~ In "/"%char t ->
  F ++ "/" ++ J = u ++ "/" ++ t -> F = u /\ J = t.
Proof.
  induction F as [|x F IH]; intros J u t Hu Ht E.
  - destruct u as [|c u].
    + injection E as ->. split; reflexivity.
    + injection E as <- _. exfalso; apply Hu; left; reflexivity.
  - destruct u as [|c u].
    + injection E as -> E. exfalso. apply Ht. rewrite <- E.
      apply in_or_app; right; left; reflexivity.
    + injection E as -> E.
      destruct (IH J u t) as [-> ->]; try assumption; [|split; reflexivity].
      intros Hin; apply Hu; right; exact Hin.
Qed.

Lemma no_slash_inside (a J w : jstr) : has_slash w = false -> w <> a ++ "/" ++ J.
Proof.
  intros Hw E. apply has_slash_false in Hw. apply Hw. rewrite E.
  apply in_or_app; right; left; reflexivity.
Qed.

(** What precedes the last segments does not depend on them. *)
Lemma join_prefix (init : list jstr) :
  exists P, forall rest, rest <> [] -> join (init ++ rest) = P ++ join rest.
Proof.
  destruct init as [|a init'].
  - exists []. reflexivity.
  - exists (join (a :: init') ++ "/"). intros rest Hr.
    rewrite join_app by (discriminate || exact Hr).
    rewrite <- app_assoc. reflexivity.
Qed.

Section Guard.

Variable proc : Process.
Variable R : jstr.
Hypothesis R_absolute : Path.isAbsolute R = true.

Lemma guard_rejects_unless (c : jstr) (ts : list jstr) :
  ts = (if Path.isAbsolute c then normalize_segs c else extend (normalize_segs R) c) ->
  join (normalize_segs R) <> [] ->
  (forall J, join ts <> join (normalize_segs R) ++ "/" ++ J) ->
  exists v, isSafePath proc (JString R) c = Ok v /\ truthy v = false.
Proof.
  intros Hts Hroot Hout.
  destruct (isSafePath_total proc R c) as (resolved & rel & _ & _ & Hs).
  exists (verdict rel). split; [exact Hs|].
  destruct (truthy (verdict rel)) eqn:Hv; [exfalso|reflexivity].
  destruct (isSafePath_sound proc R c _ R_absolute Hs Hv)
    as (ts' & _ & _ & Hts' & [H|[J H]]).
  - exact (Hroot H).
  - subst ts ts'. exact (Hout J H).
Qed.

Lemma rejects_parent_secret :
  join (normalize_segs R) <> [] ->
  exists v, isSafePath proc (JString R) "../secret" = Ok v /\ truthy v = false.
Proof.
  intros Hroot. apply (guard_rejects_unless _ (removelast (normalize_segs R) ++ ["secret" : jstr]));
    [reflexivity|exact Hroot|].
  intros J E.
  destruct (snoc_cases (normalize_segs R)) as [E0|(init & a & E0)];
    [rewrite E0 in Hroot; contradiction Hroot; reflexivity|].
  rewrite E0, removelast_last in E.
  destruct (join_prefix init) as [P HP].
  rewrite !HP in E by discriminate. cbn [join] in E.
  rewrite <- app_assoc in E. apply app_inv_head in E.
  revert E. apply no_slash_inside. reflexivity.
Qed.

Lemma rejects_absolute_etc_passwd :
  join (normalize_segs R) <> [] -> join (normalize_segs R) <> "etc" ->
  exists v, isSafePath proc (JString R) "/etc/passwd" = Ok v /\ truthy v = false.
Proof.
  intros Hroot Hetc. apply (guard_rejects_unless _ ["etc" : jstr; "passwd" : jstr]);
    [reflexivity|exact Hroot|].
  intros J E. change (join ["etc" : jstr; "passwd" : jstr]) with ("etc" ++ "/" ++ "passwd") in E.
  symmetry in E. apply app_slash_inv in E as [E _];
    [exact (Hetc E)|apply has_slash_false; reflexivity..].
Qed.

Lemma rejects_grandparent_etc_passwd :
  join (normalize_segs R) <> [] -> join (normalize_segs R) <> "etc" ->
  exists v, isSafePath proc (JString R) "../../etc/passwd" = Ok v /\ truthy v = false.
Proof.
  intros Hroot Hetc.
  apply (guard_rejects_unless _
           (removelast (removelast (normalize_segs R)) ++ ["etc" : jstr; "passwd" : jstr]));
    [unfold extend; cbn; rewrite <- app_assoc; reflexivity|exact Hroot|].
  intros J E.
  destruct (snoc_cases (normalize_segs R)) as [E0|(init & a & E0)];
    [rewrite E0 in Hroot; contradiction Hroot; reflexivity|].
  rewrite E0, removelast_last in E.
  destruct (snoc_cases init) as [->|(init' & b & ->)].
  - cbn [removelast app] in E.
    change (join ["etc" : jstr; "passwd" : jstr]) with ("etc" ++ "/" ++ "passwd") in E.
    cbn [join] in E. symmetry in E.
    apply app_slash_inv in E as [E _]; [|apply has_slash_false; reflexivity..].
    apply Hetc. rewrite E0. exact E.
  - rewrite removelast_last, <- app_assoc in E.
    destruct (join_prefix init') as [P HP].
    rewrite !HP in E by discriminate.
    rewrite <- app_assoc in E. apply app_inv_head in E.
    change (join ["etc" : jstr; "passwd" : jstr]) with ("etc" ++ "/" ++ "passwd") in E.
    change (join ([b] ++ [a])) with (b ++ "/" ++ a) in E.
    rewrite <- !app_assoc in E. symmetry in E.
    apply app_slash_inv in E as [_ E]; [|apply has_slash_false; reflexivity..].
    symmetry in E. revert E. apply no_slash_inside. reflexivity.
Qed.

End Guard.

Lemma isSafePath_pure (proc proc' : Process) (r c : jstr) :
  Path.isAbsolute r = true ->
  isSafePath proc' (JString r) c = isSafePath proc (JString r) c.
Proof.
  intros Hr.
  destruct (resolve_shape (cwd proc) r c Hr) as (ts & Hg & Hres & Hts).
  destruct (resolve_shape (cwd proc') r c Hr) as (ts' & _ & Hres' & Hts').
  rewrite <- Hts in Hts'. subst ts'.
  rewrite !isSafePath_unfold, Hres, Hres'. cbn [bind].
  rewrite !relative_of_resolved by assumption. reflexivity.
Qed.

(** ** The router, step by step *)

Lemma windowsRoot_ok (proc : Process) (name : jstr) :
  exists r, windowsRoot proc name = Ok (JString r).
Proof.
  unfold windowsRoot.
  destruct (resolve_strings (cwd proc)
              [resourcesPath proc; "app.asar/.vite/renderer/windows/" ++ name]) as [r Hr].
  cbn [map] in Hr. rewrite Hr. exists r; reflexivity.
Qed.

Lemma assetsRoot_ok (proc : Process) :
  exists r, assetsRoot proc = Ok (JString r).
Proof.
  unfold assetsRoot.
  destruct (resolve_strings (cwd proc)
              [resourcesPath proc; "app.asar/.vite/renderer/assets" : jstr]) as [r Hr].
  cbn [map] in Hr. rewrite Hr. exists r; reflexivity.
Qed.

Lemma rootOfHost_mapped (proc : Process) (h : jstr) :
  is_mapped h = true -> exists r, rootOfHost proc h = Ok (JString r).
Proof.
  unfold is_mapped, rootOfHost. intros H.
  destruct (JS.str_eqb h "updater"); [apply windowsRoot_ok|].
  destruct (JS.str_eqb h "main"); [apply windowsRoot_ok|].
  destruct (JS.str_eqb h "titlebar"); [apply windowsRoot_ok|].
  destruct (JS.str_eqb h "settings"); [apply windowsRoot_ok|discriminate].
Qed.

Lemma rootOfHost_unmapped (proc : Process) (h : jstr) :
  is_mapped h = false -> rootOfHost proc h = Ok JUndefined.
Proof.
  unfold is_mapped, rootOfHost. intros H.
  destruct (JS.str_eqb h "updater"); [discriminate|].
  destruct (JS.str_eqb h "main"); [discriminate|].
  destruct (JS.str_eqb h "titlebar"); [discriminate|].
  destruct (JS.str_eqb h "settings"); [discriminate|reflexivity].
Qed.

Lemma rootOfHost_ok (proc : Process) (h : jstr) :
  exists v, rootOfHost proc h = Ok v.
Proof.
  destruct (is_mapped h) eqn:E.
  - destruct (rootOfHost_mapped proc h E) as [r Hr]. eauto.
  - rewrite rootOfHost_unmapped by exact E. eauto.
Qed.

Lemma rewritePath_plain (proc : Process) (v : value) (p : jstr) :
  Regex.assetsRegex (indexDefault p) = None ->
  rewritePath proc v p = Ok (v, Regex.leadingSeps_strip (indexDefault p)).
Proof.
  intros H. unfold rewritePath, Regex.assetsRegex_test. rewrite H. reflexivity.
Qed.

Lemma rewritePath_assets (proc : Process) (v : value) (p rest : jstr) :
  Regex.assetsRegex (indexDefault p) = Some rest ->
  exists r, assetsRoot proc = Ok (JString r)
    /\ rewritePath proc v p = Ok (JString r, Regex.leadingSeps_strip rest).
Proof.
  intros H. destruct (assetsRoot_ok proc) as [r Hr]. exists r. split; [exact Hr|].
  unfold rewritePath, Regex.assetsRegex_test, Regex.assetsRegex_strip.
  rewrite H, Hr. reflexivity.
Qed.

(** The handler once the root and the path are known. *)
Lemma handle_resolved (proc : Process) (req : Request) (root : value) (p : jstr) :
  resolveRequest proc (host req) (pathname req) = Ok (root, p) ->
  handleYTMDAppProtocol proc req =
  match isSafePath proc root p with
  | Throw e => ([requestLog req], Throw e)
  | Ok safe =>
      if negb (truthy safe)
      then ([requestLog req; violationLog], Ok (Responded policyViolation))
      else
        match Path.resolve (cwd proc) [root; JString p] with
        | Throw e => ([requestLog req], Throw e)
        | Ok resolved =>
            ([requestLog req; inferenceLog (pathToFileURL resolved);
              NetFetch (pathToFileURL resolved)],
             Ok (Fetched (pathToFileURL resolved)))
        end
  end.
Proof.
  unfold resolveRequest, handleYTMDAppProtocol. intros H.
  destruct (rootOfHost proc (host req)) as [v0|e]; [|discriminate].
  cbn [bind] in H. unfold lift at 1. cbn [ebind emit]. unfold lift at 1.
  rewrite H. cbn [ebind app].
  destruct (isSafePath proc root p) as [safe|e]; [|reflexivity].
  unfold lift at 1. cbn [ebind app].
  destruct (negb (truthy safe)); [reflexivity|].
  destruct (Path.resolve (cwd proc) [root; JString p]); reflexivity.
Qed.

Lemma skip_seps_relative (s : jstr) : Path.isAbsolute (Regex.skip_seps s) = false.
Proof.
  induction s as [|c s IH]; [reflexivity|]. simpl.
  destruct (Regex.is_sep c) eqn:E; [exact IH|].
  unfold Regex.is_sep in E. apply orb_false_iff in E as [E _]. exact E.
Qed.

(** [path.resolve(undefined, p)] throws unless [p] is absolute. *)
Lemma isSafePath_undefined (proc : Process) (p : jstr) :
  Path.isAbsolute p = false ->
  isSafePath proc JUndefined p = Throw (ERR_INVALID_ARG_TYPE (ArgPaths 0)).
Proof.
  intros Hp. unfold isSafePath, Path.resolve.
  cbn [rev app Path.resolve_loop Path.validateString bind].
  destruct p as [|c p']; [reflexivity|]. rewrite Hp. reflexivity.
Qed.

(** A host outside the [switch] and a path outside the assets prefix:
    [rootPath] is still [undefined] when the guard is called. *)
Lemma handle_unmapped (proc : Process) (req : Request) :
  is_mapped (host req) = false ->
  Regex.assetsRegex (indexDefault (pathname req)) = None ->
  handleYTMDAppProtocol proc req
  = ([requestLog req], Throw (ERR_INVALID_ARG_TYPE (ArgPaths 0))).
Proof.
  intros Hh Hp.
  rewrite (handle_resolved proc req JUndefined
             (Regex.leadingSeps_strip (indexDefault (pathname req)))).
  - rewrite isSafePath_undefined by apply skip_seps_relative. reflexivity.
  - unfold resolveRequest. rewrite rootOfHost_unmapped by exact Hh.
    cbn [bind]. apply rewritePath_plain. exact Hp.
Qed.

(** ** The bundle roots *)

Lemma bundleSegs_good (proc : Process) (name : jstr) :
  good name -> Forall good (bundleSegs proc name).
Proof.
  intros Hn. apply Forall_app; split; [apply normalize_segs_good|].
  do 4 (apply Forall_cons; [apply goodb_good; reflexivity|]).
  apply Forall_cons; [exact Hn|apply Forall_nil].
Qed.

Lemma assetsSegs_good (proc : Process) : Forall good (assetsSegs proc).
Proof.
  apply Forall_app; split; [apply normalize_segs_good|good_segments].
Qed.

Lemma afold_windows (fs : list jstr) :
  afold fs [] "app.asar/.vite/renderer/windows/"
  = (fs ++ ["app.asar" : jstr; ".vite" : jstr; "renderer" : jstr; "windows" : jstr], []).
Proof.
  transitivity
    ((((fs ++ ["app.asar" : jstr]) ++ [".vite" : jstr]) ++ ["renderer" : jstr])
     ++ ["windows" : jstr], @nil ascii);
    [reflexivity|rewrite <- !app_assoc; reflexivity].
Qed.

Lemma windowsRoot_resolved (proc : Process) (name : jstr) :
  Path.isAbsolute (resourcesPath proc) = true -> good name ->
  windowsRoot proc name = Ok (JString ("/" ++ join (bundleSegs proc name))).
Proof.
  intros Hrp Hn. pose proof Hn as (_ & Hs & _).
  unfold windowsRoot.
  rewrite resolve_under by (exact Hrp || reflexivity).
  cbn [bind]. unfold bundleSegs, extend.
  rewrite afold_app, afold_windows. cbn [fst snd].
  rewrite afold_text by exact Hs. cbn [fst snd app].
  rewrite seg_step_good by exact Hn.
  rewrite <- app_assoc. reflexivity.
Qed.

Lemma assetsRoot_resolved (proc : Process) :
  Path.isAbsolute (resourcesPath proc) = true ->
  assetsRoot proc = Ok (JString ("/" ++ join (assetsSegs proc))).
Proof.
  intros Hrp. unfold assetsRoot.
  rewrite resolve_under by (exact Hrp || reflexivity).
  cbn [bind]. unfold assetsSegs, extend. cbn.
  rewrite <- !app_assoc. reflexivity.
Qed.

(** The root of a mapped host. *)
Lemma rootOfHost_resolved (proc : Process) (h : jstr) :
  Path.isAbsolute (resourcesPath proc) = true -> is_mapped h = true ->
  good h /\ rootOfHost proc h = Ok (JString ("/" ++ join (bundleSegs proc h))).
Proof.
  intros Hrp Hm. unfold is_mapped in Hm. unfold rootOfHost.
  destruct (JS.str_eqb h "updater") eqn:E1;
    [apply str_eqb_eq in E1; subst h; split;
     [apply goodb_good; reflexivity
     |apply windowsRoot_resolved; [exact Hrp|apply goodb_good; reflexivity]]|].
  destruct (JS.str_eqb h "main") eqn:E2;
    [apply str_eqb_eq in E2; subst h; split;
     [apply goodb_good; reflexivity
     |apply windowsRoot_resolved; [exact Hrp|apply goodb_good; reflexivity]]|].
  destruct (JS.str_eqb h "titlebar") eqn:E3;
    [apply str_eqb_eq in E3; subst h; split;
     [apply goodb_good; reflexivity
     |apply windowsRoot_resolved; [exact Hrp|apply goodb_good; reflexivity]]|].
  destruct (JS.str_eqb h "settings") eqn:E4; [|discriminate].
  apply str_eqb_eq in E4; subst h; split;
    [apply goodb_good; reflexivity
    |apply windowsRoot_resolved; [exact Hrp|apply goodb_good; reflexivity]].
Qed.

(** The three traversal candidates are rejected below every root that is
    neither ["/"] nor ["/etc"]. *)
Lemma traversals_rejected_below (proc : Process) (r c : jstr) :
  Path.isAbsolute r = true ->
  join (normalize_segs r) <> [] -> join (normalize_segs r) <> "etc" ->
  In c traversals ->
  exists v, isSafePath proc (JString r) c = Ok v /\ truthy v = false.
Proof.
  intros Hr H1 H2 [<-|[<-|[<-|[]]]].
  - apply rejects_parent_secret; assumption.
  - apply rejects_grandparent_etc_passwd; assumption.
  - apply rejects_absolute_etc_passwd; assumption.
Qed.

Lemma deep_root (fs rest : list jstr) (a b : jstr) :
  Forall good (fs ++ a :: b :: rest) ->
  join (fs ++ a :: b :: rest) <> [] /\ join (fs ++ a :: b :: rest) <> "etc".
Proof.
  intros Hg. split.
  - apply join_nonempty; [exact Hg|].
    intros E. apply app_eq_nil in E as [_ E]. discriminate E.
  - destruct (join_prefix fs) as [P HP]. rewrite HP by discriminate.
    intros E. assert (Hin : In "/"%char (list_ascii_of_string "etc")).
    { rewrite <- E. apply in_or_app; right.
      change (join (a :: b :: rest)) with (a ++ "/" ++ join (b :: rest)).
      apply in_or_app; right; left; reflexivity. }
    apply has_slash_in in Hin. discriminate Hin.
Qed.

(** Every root of the router, the four bundles and the shared assets
    directory, rejects the three traversal candidates. *)
Lemma router_roots_reject_traversals (proc : Process) (c : jstr) :
  Path.isAbsolute (resourcesPath proc) = true -> In c traversals ->
  (forall h, is_mapped h = true ->
     exists root v, rootOfHost proc h = Ok (JString root)
       /\ isSafePath proc (JString root) c = Ok v /\ truthy v = false)
  /\ (exists root v, assetsRoot proc = Ok (JString root)
       /\ isSafePath proc (JString root) c = Ok v /\ truthy v = false).
Proof.
  intros Hrp Hc. split.
  - intros h Hm. destruct (rootOfHost_resolved proc h Hrp Hm) as [Hn Hroot].
    pose proof (bundleSegs_good proc h Hn) as Hg.
    destruct (traversals_rejected_below proc ("/" ++ join (bundleSegs proc h)) c)
      as (v & Hv); try assumption; try reflexivity;
      try (rewrite normalize_segs_join by exact Hg; apply deep_root; exact Hg).
    exists ("/" ++ join (bundleSegs proc h)), v. split; [exact Hroot|exact Hv].
  - pose proof (assetsSegs_good proc) as Hg.
    destruct (traversals_rejected_below proc ("/" ++ join (assetsSegs proc)) c)
      as (v & Hv); try assumption; try reflexivity;
      try (rewrite normalize_segs_join by exact Hg; apply deep_root; exact Hg).
    exists ("/" ++ join (assetsSegs proc)), v.
    split; [apply assetsRoot_resolved; exact Hrp|exact Hv].
Qed.

Lemma isSafePath_index (proc : Process) (r : jstr) :
  Path.isAbsolute r = true ->
  isSafePath proc (JString r) "index.html" = Ok (JBool true)
  /\ Path.resolve (cwd proc) [JString r; JString "index.html"]
     = Ok ("/" ++ join (normalize_segs r ++ ["index.html" : jstr])).
Proof.
  intros Hr. apply isSafePath_accepts;
    [exact Hr|reflexivity|reflexivity|discriminate|good_segments|reflexivity].
Qed.

Lemma isSafePath_assets_app (proc : Process) (r : jstr) :
  Path.isAbsolute r = true ->
  isSafePath proc (JString r) "assets/app.js" = Ok (JBool true).
Proof.
  intros Hr.
  apply (isSafePath_accepts proc r "assets/app.js" ["assets" : jstr; "app.js" : jstr]);
    [exact Hr|reflexivity| |discriminate|good_segments|reflexivity].
  unfold extend. cbn. rewrite <- app_assoc. reflexivity.
Qed.

Lemma assetsRegex_not_root (p rest : jstr) :
  Regex.assetsRegex p = Some rest -> indexDefault p = p.
Proof.
  intros H. unfold indexDefault. destruct (JS.str_eqb p "/") eqn:E; [|reflexivity].
  apply str_eqb_eq in E. subst p. discriminate H.
Qed.

(** ** [split] and the assets expression *)

Lemma not_in_existsb (c : ascii) (w : jstr) :
  existsb (Ascii.eqb c) w = false -> ~ In c w.
Proof.
  intros H Hin. assert (existsb (Ascii.eqb c) w = true); [|congruence].
  apply existsb_exists. exists c. split; [exact Hin|apply Ascii.eqb_refl].
Qed.

Lemma split_go_skip (sep u : jstr) : forall rest cur,
  JS.split_go sep (List.length u) cur (u ++ rest) = JS.split_go sep O cur rest.
Proof.
  induction u as [|c u IH]; intros rest cur; [reflexivity|].
  cbn [List.length app JS.split_go]. apply IH.
Qed.

Lemma split_go_char (sep cur s' : jstr) (c : ascii) :
  JS.startsWith (c :: s') sep = false ->
  JS.split_go sep O cur (c :: s') = JS.split_go sep O (cur ++ [c]) s'.
Proof. intros H. cbn [JS.split_go]. rewrite H. reflexivity. Qed.

Lemma split_go_match (sep cur s' : jstr) (c : ascii) :
  JS.startsWith (c :: s') sep = true ->
  JS.split_go sep O cur (c :: s')
  = cur :: JS.split_go sep (Nat.pred (List.length sep)) [] s'.
Proof. intros H. cbn [JS.split_go]. rewrite H. reflexivity. Qed.

(** A piece that does not contain the first character of the separator
    ends at the separator that follows it. *)
Lemma split_go_piece (s0 : ascii) (sep' : jstr) (a : jstr) : forall cur rest,
  ~ In s0 a ->
  JS.split_go (s0 :: sep') O cur (a ++ (s0 :: sep') ++ rest)
  = (cur ++ a) :: JS.split_go (s0 :: sep') O [] rest.
Proof.
  induction a as [|c a IH]; intros cur rest Ha.
  - rewrite app_nil_r. change ([] ++ (s0 :: sep') ++ rest) with (s0 :: (sep' ++ rest)).
    rewrite split_go_match
      by (change (s0 :: sep' ++ rest) with ((s0 :: sep') ++ rest); apply startsWith_app).
    cbn [List.length Nat.pred]. rewrite split_go_skip. reflexivity.
  - change ((c :: a) ++ (s0 :: sep') ++ rest) with (c :: (a ++ (s0 :: sep') ++ rest)).
    rewrite split_go_char.
    + rewrite IH by (intros Hin; apply Ha; right; exact Hin).
      rewrite <- app_assoc. reflexivity.
    + cbn [JS.startsWith].
      destruct (Ascii.eqb_spec c s0) as [->|Hc]; [|reflexivity].
      exfalso; apply Ha; left; reflexivity.
Qed.

Lemma split_scheme (scheme rest : jstr) :
  ~ In ":"%char scheme ->
  JS.split (scheme ++ "://" ++ rest) "://" = scheme :: JS.split rest "://".
Proof.
  intros H. unfold JS.split. cbn [list_ascii_of_string].
  exact (split_go_piece ":" ["/"; "/"]%char scheme [] rest H).
Qed.

Lemma skip_seps_length (s : jstr) :
  (List.length (Regex.skip_seps s) <= List.length s)%nat.
Proof.
  induction s as [|c s IH]; simpl; [lia|].
  destruct (Regex.is_sep c); simpl; lia.
Qed.

Lemma skip_seps_idem (s : jstr) : Regex.skip_seps (Regex.skip_seps s) = Regex.skip_seps s.
Proof.
  induction s as [|c s IH]; [reflexivity|]. simpl.
  destruct (Regex.is_sep c) eqn:E; [exact IH|]. simpl. rewrite E. reflexivity.
Qed.

Lemma seps1_shorter (s r : jstr) :
  Regex.seps1 s = Some r ->
  (List.length r < List.length s)%nat /\ Regex.skip_seps r = r.
Proof.
  destruct s as [|c s]; [discriminate|]. simpl.
  destruct (Regex.is_sep c); [|discriminate]. intros H; injection H as <-.
  split; [pose proof (skip_seps_length s); simpl; lia|apply skip_seps_idem].
Qed.

Lemma assets_group_shorter (s r : jstr) :
  Regex.assets_group s = Some r ->
  (List.length r < List.length s)%nat /\ Regex.skip_seps r = r.
Proof.
  unfold Regex.assets_group, Regex.literal.
  destruct (JS.startsWith s "assets") eqn:E; [|discriminate].
  intros H. apply seps1_shorter in H as [H1 H2]. split; [|exact H2].
  pose proof (length_skipn (List.length (list_ascii_of_string "assets")) s). lia.
Qed.

Lemma assets_groups_exhaustive (fuel : nat) : forall s,
  (List.length s <= fuel)%nat ->
  Regex.assets_group (Regex.assets_groups fuel s) = None.
Proof.
  induction fuel as [|f IH]; intros s Hs.
  - destruct s; [reflexivity|simpl in Hs; lia].
  - cbn [Regex.assets_groups].
    destruct (Regex.assets_group s) as [r|] eqn:E; [|exact E].
    apply IH. apply assets_group_shorter in E as [E _]. lia.
Qed.

Lemma assets_groups_no_seps (fuel : nat) : forall s,
  Regex.skip_seps s = s ->
  Regex.skip_seps (Regex.assets_groups fuel s) = Regex.assets_groups fuel s.
Proof.
  induction fuel as [|f IH]; intros s Hs; [exact Hs|].
  cbn [Regex.assets_groups].
  destruct (Regex.assets_group s) as [r|] eqn:E; [|exact Hs].
  apply IH. apply assets_group_shorter in E as [_ E]. exact E.
Qed.

(** The match of the assets expression is the longest one: what follows
    it starts neither with a separator nor with another [assets] group. *)
Lemma assetsRegex_exhaustive (s rest : jstr) :
  Regex.assetsRegex s = Some rest ->
  Regex.assets_group rest = None /\ Regex.leadingSeps_strip rest = rest.
Proof.
  unfold Regex.assetsRegex.
  destruct (Regex.seps1 s) as [r|]; [|discriminate].
  destruct (Regex.assets_group r) as [r'|] eqn:E; [|discriminate].
  intros H; injection H as <-. split.
  - apply assets_groups_exhaustive. lia.
  - apply assets_groups_no_seps. apply assets_group_shorter in E as [_ E]. exact E.
Qed.

(** ** The dispatcher *)

Lemma value_is_spec (v : value) (s : jstr) : value_is v s = true <-> v = JString s.
Proof.
  destruct v as [|t|b]; simpl; split; try discriminate.
  - intros H. apply str_eqb_eq in H. congruence.
  - intros H. injection H as ->. apply str_eqb_refl.
Qed.

(** The two ways the dispatcher ends. *)
Lemma handleYTMDProtocol_cases (vm : YTMViewManager) (url : jstr) :
  (exists paths,
      playLink url paths /\ isInitialized vm = true
      /\ handleYTMDProtocol vm url
         = ([handlingLog url; navigatingLog (commandOf paths); AwaitReady;
             navigate (commandOf paths)], Ok tt))
  \/ ((forall paths, ~ (playLink url paths /\ isInitialized vm = true))
      /\ handleYTMDProtocol vm url = ([handlingLog url], Ok tt)).
Proof.
  unfold handleYTMDProtocol, playLink.
  destruct (index (JS.split url "://") 1%nat) as [|remainder|b] eqn:E1;
    try (right; split; [intros paths [(r & H & _) _]; discriminate H|reflexivity]).
  destruct remainder as [|c0 rem'] eqn:Er.
  { right. split; [|reflexivity].
    intros paths [(r & H & Hne & _) _]. injection H as <-. contradiction Hne; reflexivity. }
  rewrite <- Er in *. replace (truthy (JString remainder)) with true by (subst; reflexivity).
  set (paths := JS.split remainder "/").
  destruct (0 <? alength paths) eqn:E0.
  2:{ right. split; [|reflexivity].
      intros ps [(r & H & _ & Hps & _ & Hl) _]. injection H as <-.
      fold paths in Hps. subst ps. apply Z.ltb_ge in E0. lia. }
  destruct (value_is (index paths 0%nat) "play") eqn:Ev.
  2:{ right. split; [|reflexivity].
      intros ps [(r & H & _ & Hps & Hp & _) _]. injection H as <-.
      fold paths in Hps. subst ps. apply value_is_spec in Hp. congruence. }
  destruct (2 <=? alength paths) eqn:E2.
  2:{ right. split; [|reflexivity].
      intros ps [(r & H & _ & Hps & _ & Hl) _]. injection H as <-.
      fold paths in Hps. subst ps. apply Z.leb_gt in E2. lia. }
  destruct (isInitialized vm) eqn:Ei.
  2:{ right. split; [|reflexivity]. intros ps [_ H]. discriminate H. }
  left. exists paths. split; [|split; [reflexivity|reflexivity]].
  exists remainder. repeat split.
  - subst remainder; discriminate.
  - apply value_is_spec; exact Ev.
  - apply Z.leb_le; exact E2.
Qed.

(** * The claims *)

(** C1.  The claim is that the router never throws, whatever the host and
    the pathname.  The code does throw: for the host ["bogus"] and the
    pathname ["/index.html"] no case of the [switch] assigns [rootPath],
    the guard hands [undefined] to [path.resolve], and the handler ends
    with the [TypeError] of [validateString] after its first log line;
    no response is built. *)
Theorem router_throws_on_unknown_host (proc : Process) (m : jstr) :
  handleYTMDAppProtocol proc (bogusRequest m)
  = ([requestLog (bogusRequest m)], Throw (ERR_INVALID_ARG_TYPE (ArgPaths 0))).
Proof. apply handle_unmapped; reflexivity. Qed.

(** C2.  The claim is that a request whose host is none of [updater],
    [main], [titlebar], [settings] is answered with the 403 response.  On
    the code such a request, unless its path has the assets prefix, never
    reaches the 403 branch: the guard throws on the undefined root.  No
    response is returned and no file is fetched. *)
Theorem unknown_host_throws (proc : Process) (req : Request) :
  is_mapped (host req) = false ->
  Regex.assetsRegex (indexDefault (pathname req)) = None ->
  resolveRequest proc (host req) (pathname req)
    = Ok (JUndefined, Regex.leadingSeps_strip (indexDefault (pathname req)))
  /\ outcome (handleYTMDAppProtocol proc req) = Throw (ERR_INVALID_ARG_TYPE (ArgPaths 0))
  /\ outcome (handleYTMDAppProtocol proc req) <> Ok (Responded policyViolation)
  /\ forall u, ~ In (NetFetch u) (trace (handleYTMDAppProtocol proc req)).
Proof.
  intros Hh Hp. rewrite handle_unmapped by assumption. cbn [outcome trace fst snd].
  repeat split.
  - unfold resolveRequest. rewrite rootOfHost_unmapped by exact Hh.
    cbn [bind]. apply rewritePath_plain. exact Hp.
  - discriminate.
  - intros u [H|[]]. discriminate H.
Qed.

Lemma unknown_host_throws_witness :
  outcome (handleYTMDAppProtocol exampleProcess (bogusRequest "GET"))
  = Throw (ERR_INVALID_ARG_TYPE (ArgPaths 0)).
Proof.
  apply (unknown_host_throws exampleProcess (bogusRequest "GET")); reflexivity.
Defined.

(** C3, as stated, fails: the root ["/"] contains every path, and the
    root ["/etc"] contains ["/etc/passwd"]. *)
Lemma traversal_accepted_counterexample :
  isSafePath exampleProcess (JString "/") "../secret" = Ok (JBool true)
  /\ isSafePath exampleProcess (JString "/") "../../etc/passwd" = Ok (JBool true)
  /\ isSafePath exampleProcess (JString "/") "/etc/passwd" = Ok (JBool true)
  /\ isSafePath exampleProcess (JString "/etc") "../../etc/passwd" = Ok (JBool true)
  /\ isSafePath exampleProcess (JString "/etc") "/etc/passwd" = Ok (JBool true).
Proof. repeat split; vm_compute; reflexivity. Qed.

(** C3 (amended).  For every absolute root directory [R] whose resolved
    form is neither ["/"] nor ["/etc"], the guard rejects ["../secret"],
    ["../../etc/passwd"] and ["/etc/passwd"]. *)
Theorem traversal_rejected (proc : Process) (R : jstr) :
  Path.isAbsolute R = true ->
  Path.resolve (cwd proc) [JString R] <> Ok ("/" : jstr) ->
  Path.resolve (cwd proc) [JString R] <> Ok ("/etc" : jstr) ->
  forall c : jstr,
    In c ["../secret" : jstr; "../../etc/passwd" : jstr; "/etc/passwd" : jstr] ->
    exists v, isSafePath proc (JString R) c = Ok v /\ truthy v = false.
Proof.
  intros Hr Hroot Hetc c Hc.
  rewrite resolve_absolute in Hroot, Hetc by exact Hr.
  apply traversals_rejected_below; try assumption.
  - intros E. apply Hroot. rewrite E. reflexivity.
  - intros E. apply Hetc. rewrite E. reflexivity.
Qed.

Lemma traversal_rejected_witness :
  exists v, isSafePath exampleProcess (JString exampleRoot) "../../etc/passwd" = Ok v
            /\ truthy v = false.
Proof.
  apply (traversal_rejected exampleProcess exampleRoot);
    [reflexivity|vm_compute; discriminate|vm_compute; discriminate|].
  right; left; reflexivity.
Defined.

(** C4.  On an absolute root the guard is a total function of the
    candidate that does not depend on the process; it accepts exactly when
    the path of [resolved = path.resolve(root, candidate)] relative to the
    root is non-empty, does not begin with [".."] and is not absolute.  It
    accepts ["index.html"] and ["assets/app.js"] and rejects the empty
    candidate. *)
Theorem isSafePath_spec (proc : Process) (R candidate : jstr) :
  Path.isAbsolute R = true ->
  (exists resolved relative v,
      Path.resolve (cwd proc) [JString R; JString candidate] = Ok resolved
      /\ Path.relative (cwd proc) (JString R) (JString resolved) = Ok relative
      /\ isSafePath proc (JString R) candidate = Ok v
      /\ (truthy v = true <->
          relative <> [] /\ JS.startsWith relative ".." = false
          /\ Path.isAbsolute relative = false))
  /\ (forall proc', isSafePath proc' (JString R) candidate
                    = isSafePath proc (JString R) candidate)
  /\ isSafePath proc (JString R) "index.html" = Ok (JBool true)
  /\ isSafePath proc (JString R) "assets/app.js" = Ok (JBool true)
  /\ (exists v, isSafePath proc (JString R) [] = Ok v /\ truthy v = false).
Proof.
  intros Hr. repeat split.
  - destruct (isSafePath_total proc R candidate) as (resolved & rel & H1 & H2 & H3).
    exists resolved, rel, (verdict rel). repeat split; try assumption;
      apply verdict_truthy; assumption.
  - intros proc'. apply isSafePath_pure; exact Hr.
  - apply isSafePath_index; exact Hr.
  - apply isSafePath_assets_app; exact Hr.
  - exists (JString []). split; [apply isSafePath_empty; exact Hr|reflexivity].
Qed.

Lemma isSafePath_spec_witness :
  isSafePath exampleProcess (JString exampleRoot) "index.html" = Ok (JBool true).
Proof.
  apply (isSafePath_spec exampleProcess exampleRoot "a/b/c.js"). reflexivity.
Defined.

(** C5.  Whatever the host, mapped or not, a pathname with the reserved
    assets prefix is rerooted to the shared assets directory; the handler
    then returns what the guard decides on that root (the fetch of the file
    below it, or the 403 response) and does not throw: the undefined root
    of an unknown host is never used. *)
Theorem assets_prefix_any_host (proc : Process) (req : Request) (rest : jstr) :
  Regex.assetsRegex (pathname req) = Some rest ->
  exists root resolved v,
    assetsRoot proc = Ok (JString root)
    /\ resolveRequest proc (host req) (pathname req)
       = Ok (JString root, Regex.leadingSeps_strip rest)
    /\ isSafePath proc (JString root) (Regex.leadingSeps_strip rest) = Ok v
    /\ Path.resolve (cwd proc) [JString root; JString (Regex.leadingSeps_strip rest)]
       = Ok resolved
    /\ outcome (handleYTMDAppProtocol proc req)
       = Ok (if truthy v then Fetched (pathToFileURL resolved)
             else Responded policyViolation)
    /\ (truthy v = true ->
        In (NetFetch (pathToFileURL resolved)) (trace (handleYTMDAppProtocol proc req))).
Proof.
  intros Hm. pose proof (assetsRegex_not_root _ _ Hm) as Hi.
  destruct (rootOfHost_ok proc (host req)) as [v0 Hv0].
  destruct (rewritePath_assets proc v0 (pathname req) rest) as (root & Hroot & Hrw);
    [rewrite Hi; exact Hm|].
  destruct (isSafePath_total proc root (Regex.leadingSeps_strip rest))
    as (resolved & rel & Hres & _ & Hs).
  assert (Hrr : resolveRequest proc (host req) (pathname req)
                = Ok (JString root, Regex.leadingSeps_strip rest)).
  { unfold resolveRequest. rewrite Hv0. exact Hrw. }
  exists root, resolved, (verdict rel). repeat split; try assumption.
  - rewrite (handle_resolved proc req _ _ Hrr), Hs, Hres.
    destruct (truthy (verdict rel)); reflexivity.
  - intros Hv. rewrite (handle_resolved proc req _ _ Hrr), Hs, Hres, Hv.
    cbn. auto.
Qed.

Lemma assets_prefix_any_host_witness :
  exists root resolved v,
    assetsRoot exampleProcess = Ok (JString root)
    /\ resolveRequest exampleProcess "bogus" "/assets/app.js"
       = Ok (JString root, Regex.leadingSeps_strip "app.js")
    /\ isSafePath exampleProcess (JString root) (Regex.leadingSeps_strip "app.js") = Ok v
    /\ Path.resolve (cwd exampleProcess)
         [JString root; JString (Regex.leadingSeps_strip "app.js")] = Ok resolved
    /\ outcome (handleYTMDAppProtocol exampleProcess
                  {| method := "GET"; host := "bogus"; pathname := "/assets/app.js" |})
       = Ok (if truthy v then Fetched (pathToFileURL resolved)
             else Responded policyViolation)
    /\ (truthy v = true ->
        In (NetFetch (pathToFileURL resolved))
           (trace (handleYTMDAppProtocol exampleProcess
                     {| method := "GET"; host := "bogus"; pathname := "/assets/app.js" |}))).
Proof.
  apply (assets_prefix_any_host exampleProcess
           {| method := "GET"; host := "bogus"; pathname := "/assets/app.js" |} "app.js").
  reflexivity.
Defined.

(** C6.  When the host is mapped and the guard rejects the resolved root
    and path, the handler returns the response with status 403, header
    [Content-Type: text/html] and body ["Policy Violation"], after logging
    the violation, and [net.fetch] is not called. *)
Theorem guard_rejection_is_403
  (proc : Process) (req : Request) (root : value) (p : jstr) (v : value) :
  is_mapped (host req) = true ->
  resolveRequest proc (host req) (pathname req) = Ok (root, p) ->
  isSafePath proc root p = Ok v ->
  truthy v = false ->
  exists r,
    handleYTMDAppProtocol proc req = ([requestLog req; violationLog], Ok (Responded r))
    /\ status r = 403
    /\ headers r = [("Content-Type" : jstr, "text/html" : jstr)]
    /\ body r = "Policy Violation"
    /\ forall u, ~ In (NetFetch u) (trace (handleYTMDAppProtocol proc req)).
Proof.
  intros _ Hrr Hs Hv. exists policyViolation.
  rewrite (handle_resolved proc req _ _ Hrr), Hs, Hv. cbn [negb].
  repeat split. intros u [H|[H|[]]]; discriminate H.
Qed.

Lemma guard_rejection_is_403_witness :
  exists r,
    handleYTMDAppProtocol exampleProcess
      {| method := "GET"; host := "main"; pathname := "/../secret" |}
    = ([requestLog {| method := "GET"; host := "main"; pathname := "/../secret" |};
        violationLog], Ok (Responded r))
    /\ status r = 403
    /\ headers r = [("Content-Type" : jstr, "text/html" : jstr)]
    /\ body r = "Policy Violation"
    /\ forall u, ~ In (NetFetch u)
         (trace (handleYTMDAppProtocol exampleProcess
                   {| method := "GET"; host := "main"; pathname := "/../secret" |})).
Proof.
  apply (guard_rejection_is_403 exampleProcess
           {| method := "GET"; host := "main"; pathname := "/../secret" |}
           (JString exampleRoot) "../secret" (JBool false));
    reflexivity.
Defined.

(** C7.  For the host [main], the pathnames ["/assets/assets/x.js"] and
    ["/assets/x.js"] resolve to the same root, the shared assets directory,
    and the same path, ["x.js"]. *)
Theorem assets_rewrite_idempotent (proc : Process) :
  exists root,
    assetsRoot proc = Ok (JString root)
    /\ resolveRequest proc "main" "/assets/assets/x.js" = Ok (JString root, "x.js" : jstr)
    /\ resolveRequest proc "main" "/assets/x.js" = Ok (JString root, "x.js" : jstr).
Proof.
  destruct (rootOfHost_ok proc "main") as [v0 Hv0].
  destruct (rewritePath_assets proc v0 "/assets/assets/x.js" "x.js" eq_refl)
    as (root & Hroot & H1).
  destruct (rewritePath_assets proc v0 "/assets/x.js" "x.js" eq_refl)
    as (root' & Hroot' & H2).
  assert (root' = root) by congruence. subst root'.
  exists root. unfold resolveRequest. rewrite Hv0. cbn [bind].
  repeat split; assumption.
Qed.

(** C10.  For the host [settings] the pathname ["/"] is replaced by the
    index document: the request resolves to the path ["index.html"] under
    the settings root and the handler fetches [index.html] in that
    directory.  No other pathname is substituted. *)
Theorem index_default (proc : Process) (m : jstr) :
  Path.isAbsolute (resourcesPath proc) = true ->
  (exists root,
      rootOfHost proc "settings" = Ok (JString root)
      /\ indexDefault "/" = "/index.html"
      /\ resolveRequest proc "settings" "/" = Ok (JString root, "index.html" : jstr)
      /\ outcome (handleYTMDAppProtocol proc
                    {| method := m; host := "settings"; pathname := "/" |})
         = Ok (Fetched (pathToFileURL (root ++ "/index.html"))))
  /\ (forall pathname : jstr, pathname <> "/" -> indexDefault pathname = pathname).
Proof.
  intros Hrp. split.
  - destruct (rootOfHost_resolved proc "settings" Hrp eq_refl) as [Hn Hroot].
    pose proof (bundleSegs_good proc "settings" Hn) as Hg.
    set (root := "/" ++ join (bundleSegs proc "settings")) in *.
    assert (Hrr : resolveRequest proc "settings" "/" = Ok (JString root, "index.html" : jstr)).
    { unfold resolveRequest. rewrite Hroot. cbn [bind].
      rewrite rewritePath_plain by reflexivity. reflexivity. }
    exists root. repeat split; try assumption.
    destruct (isSafePath_index proc root eq_refl) as [Hs Hres].
    rewrite (handle_resolved proc {| method := m; host := "settings"; pathname := "/" |}
               _ _ Hrr), Hs, Hres.
    cbn [negb truthy outcome snd].
    unfold root at 1. rewrite normalize_segs_join by exact Hg.
    rewrite join_snoc
      by (unfold bundleSegs; intros E; apply app_eq_nil in E as [_ E]; discriminate E).
    unfold root. rewrite <- !app_assoc. reflexivity.
  - intros pathname Hp. unfold indexDefault.
    apply str_eqb_neq in Hp. rewrite Hp. reflexivity.
Qed.

Lemma index_default_witness :
  outcome (handleYTMDAppProtocol exampleProcess
             {| method := "GET"; host := "settings"; pathname := "/" |})
  = Ok (Fetched (pathToFileURL
                   "/opt/YTMD/resources/app.asar/.vite/renderer/windows/settings/index.html")).
Proof.
  destruct (index_default exampleProcess "GET" eq_refl) as [(root & Hroot & _ & _ & Hout) _].
  rewrite Hout. vm_compute in Hroot. injection Hroot as <-. reflexivity.
Defined.

(** C8.  With the view initialized, the deep link [<scheme>://play/abc123/def456]
    makes the dispatcher wait for readiness and then send exactly one
    navigation command, with [videoId = "abc123"] and
    [playlistId = "def456"]; for [<scheme>://play/abc123] the command has
    [videoId = "abc123"] and [playlistId] undefined. *)
Theorem deep_link_play (scheme : jstr) :
  ~ In ":"%char scheme ->
  let vm := {| isInitialized := true |} in
  let both := {| videoId := JString "abc123"; playlistId := JString "def456" |} in
  let one := {| videoId := JString "abc123"; playlistId := JUndefined |} in
  handleYTMDProtocol vm (scheme ++ "://play/abc123/def456")
  = ([handlingLog (scheme ++ "://play/abc123/def456"); navigatingLog both; AwaitReady;
      navigate both], Ok tt)
  /\ sent (trace (handleYTMDProtocol vm (scheme ++ "://play/abc123/def456"))) = [both]
  /\ handleYTMDProtocol vm (scheme ++ "://play/abc123")
     = ([handlingLog (scheme ++ "://play/abc123"); navigatingLog one; AwaitReady;
         navigate one], Ok tt)
  /\ sent (trace (handleYTMDProtocol vm (scheme ++ "://play/abc123"))) = [one].
Proof.
  intros Hs vm both one.
  assert (H2 : handleYTMDProtocol vm (scheme ++ "://play/abc123/def456")
               = ([handlingLog (scheme ++ "://play/abc123/def456"); navigatingLog both;
                   AwaitReady; navigate both], Ok tt)).
  { unfold handleYTMDProtocol.
    change (list_ascii_of_string "://play/abc123/def456")
      with ("://" ++ list_ascii_of_string "play/abc123/def456").
    rewrite (split_scheme scheme "play/abc123/def456" Hs). reflexivity. }
  assert (H1 : handleYTMDProtocol vm (scheme ++ "://play/abc123")
               = ([handlingLog (scheme ++ "://play/abc123"); navigatingLog one;
                   AwaitReady; navigate one], Ok tt)).
  { unfold handleYTMDProtocol.
    change (list_ascii_of_string "://play/abc123")
      with ("://" ++ list_ascii_of_string "play/abc123").
    rewrite (split_scheme scheme "play/abc123" Hs). reflexivity. }
  rewrite H1, H2. repeat split.
Qed.

Lemma deep_link_play_witness :
  handleYTMDProtocol {| isInitialized := true |} "ytmd://play/abc123/def456"
  = ([handlingLog "ytmd://play/abc123/def456";
      navigatingLog {| videoId := JString "abc123"; playlistId := JString "def456" |};
      AwaitReady;
      navigate {| videoId := JString "abc123"; playlistId := JString "def456" |}],
     Ok tt).
Proof.
  apply (deep_link_play "ytmd"). apply not_in_existsb. reflexivity.
Defined.

(** C9.  The dispatcher never throws.  It sends a navigation command if
    and only if the URI has a non-empty remainder after ["://"], the first
    segment of the remainder is ["play"], there are at least two segments
    and the view is initialized; the command carries segments 1 and 2.  In
    every other case it only writes its first log line. *)
Theorem deep_link_dispatch (vm : YTMViewManager) (url : jstr) :
  outcome (handleYTMDProtocol vm url) = Ok tt
  /\ (sent (trace (handleYTMDProtocol vm url)) <> []
      <-> exists paths, playLink url paths /\ isInitialized vm = true)
  /\ (forall paths, playLink url paths -> isInitialized vm = true ->
        trace (handleYTMDProtocol vm url)
        = [handlingLog url; navigatingLog (commandOf paths); AwaitReady;
           navigate (commandOf paths)])
  /\ ((forall paths, ~ (playLink url paths /\ isInitialized vm = true)) ->
        handleYTMDProtocol vm url = ([handlingLog url], Ok tt)).
Proof.
  destruct (handleYTMDProtocol_cases vm url)
    as [(paths & Hl & Hi & ->)|[Hno ->]]; cbn [outcome trace fst snd].
  - split; [reflexivity|]. split; [|split].
    + split; [intros _; exists paths; split; assumption|intros _; discriminate].
    + intros ps (r & H1 & _ & H2 & _) _. destruct Hl as (r' & H1' & _ & H2' & _).
      assert (r = r') by congruence. subst r'. subst ps paths. reflexivity.
    + intros Hno. exfalso. apply (Hno paths). split; assumption.
  - split; [reflexivity|]. split; [|split].
    + split; [intros H; contradiction H; reflexivity|].
      intros (ps & H). exfalso. exact (Hno ps H).
    + intros ps H1 H2. exfalso. apply (Hno ps). split; assumption.
    + intros _. reflexivity.
Qed.

Lemma deep_link_dispatch_witness :
  trace (handleYTMDProtocol {| isInitialized := true |} "ytmd://play/abc123")
  = [handlingLog "ytmd://play/abc123";
     navigatingLog (commandOf ["play" : jstr; "abc123" : jstr]); AwaitReady;
     navigate (commandOf ["play" : jstr; "abc123" : jstr])].
Proof.
  apply (deep_link_dispatch {| isInitialized := true |} "ytmd://play/abc123").
  - exists ("play/abc123" : jstr). repeat split; [discriminate|vm_compute; discriminate].
  - reflexivity.
Defined.

(** * Further properties *)

(** ** The router: its three outcomes *)

Lemma resolveRequest_cases (proc : Process) (h p : jstr) :
  (exists r d, resolveRequest proc h p = Ok (JString r, d)
     /\ (is_mapped h = true \/ Regex.assetsRegex (indexDefault p) <> None))
  \/ (is_mapped h = false /\ Regex.assetsRegex (indexDefault p) = None
      /\ resolveRequest proc h p
         = Ok (JUndefined, Regex.leadingSeps_strip (indexDefault p))).
Proof.
  unfold resolveRequest.
  destruct (Regex.assetsRegex (indexDefault p)) as [rest|] eqn:Ea.
  - left. destruct (rootOfHost_ok proc h) as [v0 ->]. cbn [bind].
    destruct (rewritePath_assets proc v0 p rest Ea) as (r & _ & ->).
    exists r, (Regex.leadingSeps_strip rest). split; [reflexivity|right; discriminate].
  - destruct (is_mapped h) eqn:Em.
    + left. destruct (rootOfHost_mapped proc h Em) as [r ->]. cbn [bind].
      rewrite rewritePath_plain by exact Ea.
      exists r, (Regex.leadingSeps_strip (indexDefault p)). split; [reflexivity|left; reflexivity].
    + right. rewrite rootOfHost_unmapped by exact Em. cbn [bind].
      rewrite rewritePath_plain by exact Ea. repeat split; reflexivity.
Qed.

(** With a string for root the handler ends on the guard's decision. *)
Lemma handle_string_root (proc : Process) (req : Request) (r d : jstr) :
  resolveRequest proc (host req) (pathname req) = Ok (JString r, d) ->
  exists resolved v,
    isSafePath proc (JString r) d = Ok v
    /\ Path.resolve (cwd proc) [JString r; JString d] = Ok resolved
    /\ handleYTMDAppProtocol proc req
       = if truthy v
         then ([requestLog req; inferenceLog (pathToFileURL resolved);
                NetFetch (pathToFileURL resolved)],
               Ok (Fetched (pathToFileURL resolved)))
         else ([requestLog req; violationLog], Ok (Responded policyViolation)).
Proof.
  intros Hrr.
  destruct (isSafePath_total proc r d) as (resolved & rel & Hres & _ & Hs).
  exists resolved, (verdict rel). repeat split; try assumption.
  rewrite (handle_resolved proc req _ _ Hrr), Hs, Hres.
  destruct (truthy (verdict rel)); reflexivity.
Qed.

(** X1.  The handler throws exactly for an unmapped host with a pathname outside
    the assets prefix; the exception is then the [TypeError] of
    [path.resolve], and nothing was fetched.  In every other case it
    returns the 403 response or the fetch of one file. *)
Theorem router_outcomes (proc : Process) (req : Request) :
  ((exists e, outcome (handleYTMDAppProtocol proc req) = Throw e)
   <-> is_mapped (host req) = false
       /\ Regex.assetsRegex (indexDefault (pathname req)) = None)
  /\ (forall e, outcome (handleYTMDAppProtocol proc req) = Throw e ->
        e = ERR_INVALID_ARG_TYPE (ArgPaths 0)
        /\ trace (handleYTMDAppProtocol proc req) = [requestLog req])
  /\ (forall r, outcome (handleYTMDAppProtocol proc req) = Ok r ->
        (r = Responded policyViolation
         /\ fetched (trace (handleYTMDAppProtocol proc req)) = [])
        \/ (exists path, r = Fetched (FileURL path)
            /\ fetched (trace (handleYTMDAppProtocol proc req)) = [path])).
Proof.
  destruct (resolveRequest_cases proc (host req) (pathname req))
    as [(r & d & Hrr & Hwhy)|(Hm & Ha & _)].
  - destruct (handle_string_root proc req r d Hrr) as (resolved & v & _ & _ & ->).
    assert (Hok : forall e,
               outcome (if truthy v
                        then ([requestLog req; inferenceLog (pathToFileURL resolved);
                               NetFetch (pathToFileURL resolved)],
                              Ok (Fetched (pathToFileURL resolved)))
                        else ([requestLog req; violationLog],
                              Ok (Responded policyViolation))) <> Throw e)
      by (intros e; destruct (truthy v); discriminate).
    split; [split|split].
    + intros [e He]. exfalso. exact (Hok e He).
    + intros [Hm Ha]. exfalso. destruct Hwhy as [H|H]; [congruence|exact (H Ha)].
    + intros e He. exfalso. exact (Hok e He).
    + intros r0 Hr0. destruct (truthy v); cbn [outcome snd] in Hr0; injection Hr0 as <-.
      * right. exists resolved. split; reflexivity.
      * left. split; reflexivity.
  - rewrite (handle_unmapped proc req Hm Ha). cbn [outcome trace fst snd].
    split; [split|split].
    + intros _. split; assumption.
    + intros _. eexists; reflexivity.
    + intros e He. injection He as <-. split; reflexivity.
    + intros r Hr. discriminate Hr.
Qed.

(** ** The router: what it fetches *)

Lemma slash_free_prefix (a : jstr) : forall b X Y,
  ~ In "/"%char a -> ~ In "/"%char b ->
  a ++ "/" ++ X = b ++ "/" ++ Y -> a = b /\ X = Y.
Proof.
  induction a as [|x a IH]; intros b X Y Ha Hb E; destruct b as [|y b].
  - injection E as ->. split; reflexivity.
  - injection E as <- _. exfalso; apply Hb; left; reflexivity.
  - injection E as -> _. exfalso; apply Ha; left; reflexivity.
  - injection E as -> E.
    destruct (IH b X Y) as [-> ->]; try assumption; [| |split; reflexivity];
      intros Hin; [apply Ha|apply Hb]; right; exact Hin.
Qed.

Lemma slash_free_whole (t a J : jstr) : ~ In "/"%char t -> t <> a ++ "/" ++ J.
Proof.
  intros Ht E. apply Ht. rewrite E. apply in_or_app; right; left; reflexivity.
Qed.

(** A normalised path that continues another one after a slash has its
    segments first. *)
Lemma join_extends (segs : list jstr) : forall ts J,
  segs <> [] -> Forall good segs -> Forall good ts ->
  join ts = join segs ++ "/" ++ J ->
  exists rest, ts = segs ++ rest /\ rest <> [] /\ J = join rest.
Proof.
  induction segs as [|s1 segs IH]; intros ts J Hne Hs Ht E; [contradiction|].
  inversion Hs as [|? ? (_ & Hs1 & _) Hs']; subst.
  destruct ts as [|t1 [|t2 ts'']].
  - exfalso. destruct segs as [|s2 segs'];
      [cbn [join] in E|change (join (s1 :: s2 :: segs')) with (s1 ++ "/" ++ join (s2 :: segs')) in E];
      destruct s1; discriminate E.
  - exfalso. inversion Ht as [|? ? (_ & Ht1 & _) _]; subst. cbn [join] in E.
    destruct segs as [|s2 segs'].
    + cbn [join] in E. exact (slash_free_whole _ _ _ Ht1 E).
    + change (join (s1 :: s2 :: segs')) with (s1 ++ "/" ++ join (s2 :: segs')) in E.
      rewrite <- !app_assoc in E. exact (slash_free_whole _ _ _ Ht1 E).
  - inversion Ht as [|? ? (_ & Ht1 & _) Ht']; subst.
    change (join (t1 :: t2 :: ts'')) with (t1 ++ "/" ++ join (t2 :: ts'')) in E.
    destruct segs as [|s2 segs'].
    + cbn [join] in E. apply slash_free_prefix in E as [-> E]; try assumption.
      exists (t2 :: ts''). repeat split; [discriminate|symmetry; exact E].
    + change (join (s1 :: s2 :: segs')) with (s1 ++ "/" ++ join (s2 :: segs')) in E.
      rewrite <- !app_assoc in E. apply slash_free_prefix in E as [-> E]; try assumption.
      destruct (IH (t2 :: ts'') J) as (rest & E1 & Hr & HJ);
        [discriminate|exact Hs'|exact Ht'|exact E|].
      exists rest. rewrite E1. repeat split; assumption.
Qed.

(** The string roots the router hands to the guard. *)
Lemma resolveRequest_root (proc : Process) (h p r d : jstr) :
  Path.isAbsolute (resourcesPath proc) = true ->
  resolveRequest proc h p = Ok (JString r, d) ->
  exists segs, segs <> [] /\ Forall good segs /\ r = "/" ++ join segs
    /\ (assetsRoot proc = Ok (JString r)
        \/ (is_mapped h = true /\ rootOfHost proc h = Ok (JString r))).
Proof.
  intros Hrp Hrr. unfold resolveRequest in Hrr.
  destruct (Regex.assetsRegex (indexDefault p)) as [rest|] eqn:Ea.
  - destruct (rootOfHost_ok proc h) as [v0 Hv0]. rewrite Hv0 in Hrr. cbn [bind] in Hrr.
    destruct (rewritePath_assets proc v0 p rest Ea) as (r' & Hroot & Hrw).
    rewrite Hrw in Hrr. injection Hrr as <- _.
    pose proof (assetsRoot_resolved proc Hrp) as Hres.
    exists (assetsSegs proc). repeat split.
    + unfold assetsSegs. intros E. apply app_eq_nil in E as [_ E]. discriminate E.
    + apply assetsSegs_good.
    + congruence.
    + left. exact Hroot.
  - destruct (is_mapped h) eqn:Em.
    + destruct (rootOfHost_resolved proc h Hrp Em) as [Hn Hroot].
      rewrite Hroot in Hrr. cbn [bind] in Hrr.
      rewrite rewritePath_plain in Hrr by exact Ea. injection Hrr as <- _.
      exists (bundleSegs proc h). repeat split.
      * unfold bundleSegs. intros E. apply app_eq_nil in E as [_ E]. discriminate E.
      * apply bundleSegs_good; exact Hn.
      * right. split; [reflexivity|exact Hroot].
    + rewrite rootOfHost_unmapped in Hrr by exact Em. cbn [bind] in Hrr.
      rewrite rewritePath_plain in Hrr by exact Ea. discriminate Hrr.
Qed.

(** X2.  Every file the handler fetches lies below the bundle directory of the
    (mapped) host or below the shared assets directory: its path is that
    root followed by at least one segment, none of which is empty, ["."],
    [".."] or contains a slash. *)
Theorem fetch_confined (proc : Process) (req : Request) (path : jstr) :
  Path.isAbsolute (resourcesPath proc) = true ->
  In path (fetched (trace (handleYTMDAppProtocol proc req))) ->
  exists root rest,
    (assetsRoot proc = Ok (JString root)
     \/ (is_mapped (host req) = true
         /\ rootOfHost proc (host req) = Ok (JString root)))
    /\ rest <> [] /\ Forall good rest
    /\ path = root ++ "/" ++ join rest.
Proof.
  intros Hrp Hin.
  destruct (resolveRequest_cases proc (host req) (pathname req))
    as [(r & d & Hrr & _)|(Hm & Ha & _)];
    [|rewrite (handle_unmapped proc req Hm Ha) in Hin; destruct Hin].
  destruct (resolveRequest_root proc _ _ _ _ Hrp Hrr) as (segs & Hne & Hg & Hr & Hwhich).
  destruct (handle_string_root proc req r d Hrr) as (resolved & v & Hs & Hres & Hh).
  rewrite Hh in Hin. destruct (truthy v) eqn:Hv; cbn in Hin; [|destruct Hin].
  destruct Hin as [<-|[]].
  assert (Hra : Path.isAbsolute r = true) by (subst r; reflexivity).
  destruct (isSafePath_sound proc r d v Hra Hs Hv) as (ts & Hts & Hres' & _ & Hbelow).
  rewrite Hres in Hres'. injection Hres' as ->.
  assert (Hn : normalize_segs r = segs) by (subst r; apply normalize_segs_join; exact Hg).
  rewrite Hn in Hbelow.
  destruct Hbelow as [E|[J E]];
    [exfalso; exact (join_nonempty segs Hg Hne E)|].
  destruct (join_extends segs ts J Hne Hg Hts E) as (rest & -> & Hrest & _).
  exists r, rest. repeat split; try assumption.
  - apply Forall_app in Hts as [_ H]. exact H.
  - rewrite join_app by assumption. subst r. rewrite <- !app_assoc. reflexivity.
Qed.

Lemma fetch_confined_witness :
  exists root rest,
    (assetsRoot exampleProcess = Ok (JString root)
     \/ (is_mapped "main" = true
         /\ rootOfHost exampleProcess "main" = Ok (JString root)))
    /\ rest <> [] /\ Forall good rest
    /\ ("/opt/YTMD/resources/app.asar/.vite/renderer/windows/main/css/app.css" : jstr)
       = root ++ "/" ++ join rest.
Proof.
  apply (fetch_confined exampleProcess
           {| method := "GET"; host := "main"; pathname := "/css/app.css" |}
           "/opt/YTMD/resources/app.asar/.vite/renderer/windows/main/css/app.css");
    [reflexivity|vm_compute; left; reflexivity].
Defined.

(** ** The router: what it serves *)

Lemma plainb_plain (w : jstr) : plainb w = true -> plain w.
Proof.
  unfold plainb. rewrite andb_true_iff, negb_true_iff. intros [H1 H2].
  split; [apply goodb_good; exact H1|apply not_in_existsb; exact H2].
Qed.

Lemma plain_head (c : ascii) (w : jstr) : plain (c :: w) -> Regex.is_sep c = false.
Proof.
  intros [(_ & Hs & _) Hb]. unfold Regex.is_sep.
  destruct (Ascii.eqb_spec c "/") as [->|_]; [exfalso; apply Hs; left; reflexivity|].
  destruct (Ascii.eqb_spec c "\") as [->|_]; [exfalso; apply Hb; left; reflexivity|].
  reflexivity.
Qed.

Lemma plain_tail (c : ascii) (w : jstr) :
  ~ In "/"%char (c :: w) -> ~ In "\"%char (c :: w) ->
  ~ In "/"%char w /\ ~ In "\"%char w.
Proof. intros H1 H2. split; intros H; [apply H1|apply H2]; right; exact H. Qed.

(** Two texts free of separators that end at a separator or at the end of
    the same string are equal. *)
Lemma sepfree_prefix (a : jstr) : forall b X Y,
  ~ In "/"%char a -> ~ In "\"%char a -> ~ In "/"%char b -> ~ In "\"%char b ->
  match X with [] => True | c :: _ => Regex.is_sep c = true end ->
  match Y with [] => True | c :: _ => Regex.is_sep c = true end ->
  a ++ X = b ++ Y -> a = b.
Proof.
  assert (Hsep : forall (c : ascii) (w : jstr),
             ~ In "/"%char (c :: w) -> ~ In "\"%char (c :: w) -> Regex.is_sep c = false).
  { intros c w H1 H2. unfold Regex.is_sep.
    destruct (Ascii.eqb_spec c "/") as [->|_]; [exfalso; apply H1; left; reflexivity|].
    destruct (Ascii.eqb_spec c "\") as [->|_]; [exfalso; apply H2; left; reflexivity|].
    reflexivity. }
  induction a as [|x a IH]; intros b X Y Ha1 Ha2 Hb1 Hb2 HX HY E; destruct b as [|y b].
  - reflexivity.
  - cbn [app] in E. subst X. rewrite (Hsep y b Hb1 Hb2) in HX. discriminate HX.
  - cbn [app] in E. subst Y. rewrite (Hsep x a Ha1 Ha2) in HY. discriminate HY.
  - injection E as -> E.
    destruct (plain_tail _ _ Ha1 Ha2) as [Ha1' Ha2'].
    destruct (plain_tail _ _ Hb1 Hb2) as [Hb1' Hb2'].
    rewrite (IH b X Y Ha1' Ha2' Hb1' Hb2' HX HY E). reflexivity.
Qed.

Lemma join_first (first : jstr) (others : list jstr) :
  exists tail, join (first :: others) = first ++ tail
    /\ match tail with [] => True | c :: _ => Regex.is_sep c = true end.
Proof.
  destruct others as [|o others'].
  - exists []. split; [cbn [join]; rewrite app_nil_r; reflexivity|exact I].
  - exists ("/" ++ join (o :: others')). split; reflexivity.
Qed.

Lemma assets_groups_none (fuel : nat) (s : jstr) :
  Regex.assets_group s = None -> Regex.assets_groups fuel s = s.
Proof. intros H. destruct fuel; [reflexivity|]. cbn [Regex.assets_groups]. rewrite H. reflexivity. Qed.

Lemma startsWith_two (c1 c2 p1 p2 : ascii) (s : jstr) :
  JS.startsWith (c1 :: c2 :: s) [p1; p2] = Ascii.eqb c1 p1 && Ascii.eqb c2 p2.
Proof. cbn [JS.startsWith]. destruct s; rewrite andb_true_r; reflexivity. Qed.

(** What the router sees of an ordinary path. *)
Lemma ordinary_facts (rest : list jstr) :
  ordinary rest ->
  rest <> [] /\ Forall good rest
  /\ JS.startsWith (join rest) ".." = false
  /\ Regex.skip_seps (join rest) = join rest
  /\ Regex.assets_group (join rest) = None.
Proof.
  intros (Hp & first & others & -> & Hna & Hdd).
  inversion Hp as [|? ? Hf _]; subst.
  pose proof Hf as [(Hne & Hs & Hd & _) Hb].
  destruct (join_first first others) as (tail & Ej & Htail).
  destruct first as [|c w]; [contradiction|].
  pose proof (plain_head c w Hf) as Hc.
  split; [discriminate|]. split.
  { eapply Forall_impl; [|exact Hp]. intros a [Ha _]. exact Ha. }
  rewrite Ej. split; [|split].
  - destruct w as [|c2 w'].
    + cbn. destruct (Ascii.eqb_spec c "."); [subst; contradiction Hd; reflexivity|].
      reflexivity.
    + change (list_ascii_of_string "..") with ["."%char; "."%char] in *.
      cbn [app]. rewrite startsWith_two in *. exact Hdd.
  - cbn [app Regex.skip_seps]. rewrite Hc. reflexivity.
  - unfold Regex.assets_group, Regex.literal.
    destruct (JS.startsWith ((c :: w) ++ tail) "assets") eqn:Est; [|reflexivity].
    apply startsWith_inv in Est as [t Et]. rewrite Et.
    change (skipn (List.length (list_ascii_of_string "assets")) ("assets" ++ t)) with t.
    destruct t as [|d t']; [reflexivity|]. cbn [Regex.seps1].
    destruct (Regex.is_sep d) eqn:Ed; [exfalso|reflexivity].
    apply Hna.
    apply (sepfree_prefix (c :: w) "assets" tail (d :: t')); try assumption;
      try (apply not_in_existsb; reflexivity).
Qed.

Lemma extend_join (segs rest : list jstr) :
  Forall good rest -> extend segs (join rest) = segs ++ rest.
Proof.
  intros Hg. pose proof (afold_join rest segs Hg) as H.
  rewrite afold_slash in H. injection H as H. exact H.
Qed.

(** An ordinary path below an absolute root: the guard accepts it and it
    resolves to the root followed by the path. *)
Lemma ordinary_below (proc : Process) (segs rest : list jstr) :
  segs <> [] -> Forall good segs -> ordinary rest ->
  isSafePath proc (JString ("/" ++ join segs)) (join rest) = Ok (JBool true)
  /\ Path.resolve (cwd proc) [JString ("/" ++ join segs); JString (join rest)]
     = Ok (("/" ++ join segs) ++ "/" ++ join rest).
Proof.
  intros Hne Hg Ho.
  destruct (ordinary_facts rest Ho) as (Hr & Hgr & Hdd & Hsk & _).
  assert (Hrel : Path.isAbsolute (join rest) = false)
    by (rewrite <- Hsk; apply skip_seps_relative).
  destruct (isSafePath_accepts proc ("/" ++ join segs) (join rest) rest) as [Hs Hres];
    try assumption; try reflexivity.
  { rewrite normalize_segs_join by exact Hg. apply extend_join; exact Hgr. }
  split; [exact Hs|]. rewrite Hres, normalize_segs_join by exact Hg.
  rewrite join_app by assumption. rewrite <- !app_assoc. reflexivity.
Qed.

Lemma assetsRegex_plain (x : jstr) :
  Regex.skip_seps x = x -> Regex.assets_group x = None ->
  Regex.assetsRegex ("/" ++ x) = None.
Proof.
  intros Hsk Hg. unfold Regex.assetsRegex.
  change (Regex.seps1 ("/" ++ x)) with (Some (Regex.skip_seps x)).
  rewrite Hsk, Hg. reflexivity.
Qed.

Lemma assetsRegex_one (x : jstr) :
  Regex.skip_seps x = x -> Regex.assets_group x = None ->
  Regex.assetsRegex ("/assets/" ++ x) = Some x.
Proof.
  intros Hsk Hg. unfold Regex.assetsRegex.
  change (Regex.seps1 ("/assets/" ++ x)) with (Some ("assets/" ++ x)).
  cbv beta iota.
  change (Regex.assets_group ("assets/" ++ x)) with (Some (Regex.skip_seps x)).
  rewrite Hsk, assets_groups_none by exact Hg. reflexivity.
Qed.

Lemma indexDefault_other (x : jstr) : x <> [] -> indexDefault ("/" ++ x) = "/" ++ x.
Proof.
  intros Hx. unfold indexDefault.
  destruct (JS.str_eqb ("/" ++ x) "/") eqn:E; [|reflexivity].
  apply str_eqb_eq in E. injection E as E. contradiction.
Qed.

(** The resolution of an ordinary path on a mapped host. *)
Lemma ordinary_path_served_aux (proc : Process) (m h : jstr) (rest : list jstr) :
  Path.isAbsolute (resourcesPath proc) = true ->
  is_mapped h = true ->
  ordinary rest ->
  exists root,
    rootOfHost proc h = Ok (JString root)
    /\ resolveRequest proc h ("/" ++ join rest) = Ok (JString root, join rest)
    /\ isSafePath proc (JString root) (join rest) = Ok (JBool true)
    /\ Path.resolve (cwd proc) [JString root; JString (join rest)]
       = Ok (root ++ "/" ++ join rest).
Proof.
  intros Hrp Hm Ho.
  destruct (rootOfHost_resolved proc h Hrp Hm) as [Hn Hroot].
  pose proof (bundleSegs_good proc h Hn) as Hg.
  assert (Hne : bundleSegs proc h <> [])
    by (unfold bundleSegs; intros E; apply app_eq_nil in E as [_ E]; discriminate E).
  destruct (ordinary_facts rest Ho) as (Hr & Hgr & _ & Hsk & Hag).
  destruct (ordinary_below proc _ rest Hne Hg Ho) as [Hs Hres].
  exists ("/" ++ join (bundleSegs proc h)).
  split; [exact Hroot|]. split; [|split; assumption].
  assert (Hj : join rest <> []) by (apply join_nonempty; assumption).
  unfold resolveRequest. rewrite Hroot. cbn [bind].
  rewrite rewritePath_plain
    by (rewrite indexDefault_other by exact Hj; apply assetsRegex_plain; assumption).
  rewrite indexDefault_other by exact Hj.
  unfold Regex.leadingSeps_strip.
  change (Regex.skip_seps ("/" ++ join rest)) with (Regex.skip_seps (join rest)).
  rewrite Hsk. reflexivity.
Qed.

(** X4.  A mapped host serves every ordinary path from its bundle directory:
    the handler fetches the root of the host followed by the path. *)
Theorem ordinary_path_served (proc : Process) (m h : jstr) (rest : list jstr) :
  Path.isAbsolute (resourcesPath proc) = true ->
  is_mapped h = true ->
  ordinary rest ->
  exists root,
    rootOfHost proc h = Ok (JString root)
    /\ handleYTMDAppProtocol proc
         {| method := m; host := h; pathname := "/" ++ join rest |}
       = ([requestLog {| method := m; host := h; pathname := "/" ++ join rest |};
           inferenceLog (pathToFileURL (root ++ "/" ++ join rest));
           NetFetch (pathToFileURL (root ++ "/" ++ join rest))],
          Ok (Fetched (pathToFileURL (root ++ "/" ++ join rest)))).
Proof.
  intros Hrp Hm Ho.
  destruct (ordinary_path_served_aux proc m h rest Hrp Hm Ho)
    as (root & Hroot & Hrr & Hs & Hres).
  exists root. split; [exact Hroot|].
  rewrite (handle_resolved proc
             {| method := m; host := h; pathname := "/" ++ join rest |} _ _ Hrr).
  rewrite Hs, Hres. reflexivity.
Qed.

Lemma ordinary_example : ordinary ["css" : jstr; "app.css" : jstr].
Proof.
  split.
  - repeat (apply Forall_cons; [apply plainb_plain; reflexivity|]). apply Forall_nil.
  - exists ("css" : jstr), ["app.css" : jstr].
    repeat split; [discriminate].
Qed.

Lemma ordinary_path_served_witness :
  exists root,
    rootOfHost exampleProcess "main" = Ok (JString root)
    /\ handleYTMDAppProtocol exampleProcess
         {| method := "GET"; host := "main";
            pathname := "/" ++ join ["css" : jstr; "app.css" : jstr] |}
       = ([requestLog {| method := "GET"; host := "main";
                         pathname := "/" ++ join ["css" : jstr; "app.css" : jstr] |};
           inferenceLog (pathToFileURL
                           (root ++ "/" ++ join ["css" : jstr; "app.css" : jstr]));
           NetFetch (pathToFileURL
                       (root ++ "/" ++ join ["css" : jstr; "app.css" : jstr]))],
          Ok (Fetched (pathToFileURL
                         (root ++ "/" ++ join ["css" : jstr; "app.css" : jstr])))).
Proof.
  apply (ordinary_path_served exampleProcess "GET" "main" ["css" : jstr; "app.css" : jstr]);
    [reflexivity|reflexivity|exact ordinary_example].
Defined.

Lemma ordinary_index : ordinary ["index.html" : jstr].
Proof.
  split.
  - repeat (apply Forall_cons; [apply plainb_plain; reflexivity|]). apply Forall_nil.
  - exists ("index.html" : jstr), []. repeat split. discriminate.
Qed.

(** X5.  For every mapped host the pathname ["/"] is served as [index.html] of
    the bundle, exactly as the pathname ["/index.html"] is. *)
Theorem root_is_index (proc : Process) (m h : jstr) :
  Path.isAbsolute (resourcesPath proc) = true ->
  is_mapped h = true ->
  exists root,
    rootOfHost proc h = Ok (JString root)
    /\ outcome (handleYTMDAppProtocol proc {| method := m; host := h; pathname := "/" |})
       = Ok (Fetched (pathToFileURL (root ++ "/index.html")))
    /\ fetched (trace (handleYTMDAppProtocol proc
                         {| method := m; host := h; pathname := "/" |}))
       = [root ++ "/index.html"]
    /\ outcome (handleYTMDAppProtocol proc
                  {| method := m; host := h; pathname := "/index.html" |})
       = Ok (Fetched (pathToFileURL (root ++ "/index.html"))).
Proof.
  intros Hrp Hm.
  destruct (ordinary_path_served_aux proc m h ["index.html" : jstr] Hrp Hm ordinary_index)
    as (root & Hroot & Hrr & Hs & Hres).
  exists root. split; [exact Hroot|].
  assert (Hrr0 : resolveRequest proc h "/" = Ok (JString root, "index.html" : jstr))
    by exact Hrr.
  rewrite (handle_resolved proc {| method := m; host := h; pathname := "/" |} _ _ Hrr0).
  rewrite (handle_resolved proc {| method := m; host := h; pathname := "/index.html" |}
             _ _ Hrr).
  cbn [join] in Hs, Hres |- *. rewrite Hs, Hres. repeat split.
Qed.

Lemma root_is_index_witness :
  exists root,
    rootOfHost exampleProcess "updater" = Ok (JString root)
    /\ outcome (handleYTMDAppProtocol exampleProcess
                  {| method := "GET"; host := "updater"; pathname := "/" |})
       = Ok (Fetched (pathToFileURL (root ++ "/index.html")))
    /\ fetched (trace (handleYTMDAppProtocol exampleProcess
                         {| method := "GET"; host := "updater"; pathname := "/" |}))
       = [root ++ "/index.html"]
    /\ outcome (handleYTMDAppProtocol exampleProcess
                  {| method := "GET"; host := "updater"; pathname := "/index.html" |})
       = Ok (Fetched (pathToFileURL (root ++ "/index.html"))).
Proof.
  apply (root_is_index exampleProcess "GET" "updater"); reflexivity.
Defined.

(** ** The router: the assets prefix *)

Lemma skip_seps_split (s : jstr) :
  exists pre, s = pre ++ Regex.skip_seps s /\ forallb Regex.is_sep pre = true.
Proof.
  induction s as [|c s (pre & E & Hp)]; [exists []; split; reflexivity|].
  cbn [Regex.skip_seps]. destruct (Regex.is_sep c) eqn:Ec.
  - exists (c :: pre). split; [cbn [app]; rewrite <- E; reflexivity|].
    cbn [forallb]. rewrite Ec, Hp. reflexivity.
  - exists []. split; reflexivity.
Qed.

Lemma skip_seps_app (pre s : jstr) :
  forallb Regex.is_sep pre = true ->
  Regex.skip_seps (pre ++ s) = Regex.skip_seps s.
Proof.
  induction pre as [|c pre IH]; intros H; [reflexivity|].
  cbn [forallb] in H. apply andb_true_iff in H as [Hc Hp].
  cbn [app Regex.skip_seps]. rewrite Hc. apply IH; exact Hp.
Qed.

(** X7.  The router reroots exactly the pathnames made of one or more
    separators, the segment [assets] and a separator, followed by
    anything. *)
Theorem assets_prefix_shape (p : jstr) :
  Regex.assetsRegex_test p = true
  <-> exists seps c tail,
        seps <> [] /\ forallb Regex.is_sep seps = true /\ Regex.is_sep c = true
        /\ p = seps ++ "assets" ++ c :: tail.
Proof.
  unfold Regex.assetsRegex_test, Regex.assetsRegex. split.
  - destruct p as [|c0 s']; [discriminate|]. cbn [Regex.seps1].
    destruct (Regex.is_sep c0) eqn:E0; [|discriminate].
    destruct (skip_seps_split s') as (pre & Es & Hpre).
    unfold Regex.assets_group, Regex.literal.
    destruct (JS.startsWith (Regex.skip_seps s') "assets") eqn:Est; [|discriminate].
    apply startsWith_inv in Est as [t Et]. rewrite Et.
    change (skipn (List.length (list_ascii_of_string "assets")) ("assets" ++ t)) with t.
    destruct t as [|c t']; [discriminate|]. cbn [Regex.seps1].
    destruct (Regex.is_sep c) eqn:Ec; [|discriminate]. intros _.
    exists (c0 :: pre), c, t'. repeat split.
    + discriminate.
    + cbn [forallb]. rewrite E0, Hpre. reflexivity.
    + exact Ec.
    + cbn [app]. rewrite Es at 1. rewrite Et. reflexivity.
  - intros (seps & c & tail & Hne & Hs & Hc & ->).
    destruct seps as [|c0 seps']; [contradiction|].
    cbn [forallb] in Hs. apply andb_true_iff in Hs as [H0 Hs].
    cbn [app Regex.seps1]. rewrite H0. rewrite skip_seps_app by exact Hs.
    change (Regex.skip_seps ("assets" ++ c :: tail)) with ("assets" ++ c :: tail).
    change (Regex.assets_group ("assets" ++ c :: tail)) with (Regex.seps1 (c :: tail)).
    cbn [Regex.seps1]. rewrite Hc. reflexivity.
Qed.

Lemma assets_groups_fuel (f1 : nat) : forall f2 s,
  (List.length s <= f1)%nat -> (List.length s <= f2)%nat ->
  Regex.assets_groups f1 s = Regex.assets_groups f2 s.
Proof.
  induction f1 as [|f1 IH]; intros f2 s H1 H2.
  - destruct s; [|simpl in H1; lia]. destruct f2; reflexivity.
  - destruct f2 as [|f2].
    + destruct s; [reflexivity|simpl in H2; lia].
    + cbn [Regex.assets_groups].
      destruct (Regex.assets_group s) as [r|] eqn:E; [|reflexivity].
      apply assets_group_shorter in E as [E _]. apply IH; lia.
Qed.

(** X8.  One more [/assets] in front of a pathname that has the assets prefix
    changes neither the root nor the path the request resolves to, whatever
    the host. *)
Theorem assets_prefix_repeated (proc : Process) (h p rest : jstr) :
  Regex.assetsRegex p = Some rest ->
  Regex.assetsRegex ("/assets" ++ p) = Some rest
  /\ resolveRequest proc h ("/assets" ++ p) = resolveRequest proc h p
  /\ forall m,
       outcome (handleYTMDAppProtocol proc
                  {| method := m; host := h; pathname := "/assets" ++ p |})
       = outcome (handleYTMDAppProtocol proc
                    {| method := m; host := h; pathname := p |}).
Proof.
  intros Hp.
  assert (Hq : Regex.assetsRegex ("/assets" ++ p) = Some rest).
  { unfold Regex.assetsRegex in *.
    change (Regex.seps1 ("/assets" ++ p)) with (Some ("assets" ++ p)). cbv beta iota.
    replace (Regex.assets_group ("assets" ++ p)) with (Regex.seps1 p)
      by (unfold Regex.assets_group, Regex.literal; rewrite startsWith_app; reflexivity).
    destruct (Regex.seps1 p) as [r|]; [|discriminate].
    destruct (Regex.assets_group r) as [r'|] eqn:Eg; [|discriminate].
    injection Hp as <-. f_equal.
    pose proof (assets_group_shorter r r' Eg) as [Hlt _].
    destruct (List.length r) as [|n] eqn:En; [lia|].
    cbn [Regex.assets_groups]. rewrite Eg. apply assets_groups_fuel; lia. }
  assert (Hrr : resolveRequest proc h ("/assets" ++ p) = resolveRequest proc h p).
  { unfold resolveRequest. destruct (rootOfHost_ok proc h) as [v0 ->]. cbn [bind].
    destruct (rewritePath_assets proc v0 p rest) as (r1 & Hr1 & ->);
      [rewrite (assetsRegex_not_root _ _ Hp); exact Hp|].
    destruct (rewritePath_assets proc v0 ("/assets" ++ p) rest) as (r2 & Hr2 & ->);
      [rewrite (assetsRegex_not_root _ _ Hq); exact Hq|].
    congruence. }
  split; [exact Hq|]. split; [exact Hrr|].
  intros m.
  destruct (resolveRequest proc h p) as [[root d]|e] eqn:E.
  - rewrite (handle_resolved proc {| method := m; host := h; pathname := "/assets" ++ p |}
               root d Hrr).
    rewrite (handle_resolved proc {| method := m; host := h; pathname := p |} root d E).
    destruct (isSafePath proc root d) as [v|e]; [|reflexivity].
    destruct (negb (truthy v)); [reflexivity|].
    destruct (Path.resolve (cwd proc) [root; JString d]); reflexivity.
  - exfalso. destruct (resolveRequest_cases proc h p) as [(r & d & H & _)|(_ & _ & H)];
      congruence.
Qed.

Lemma assets_prefix_repeated_witness :
  Regex.assetsRegex ("/assets" ++ "/assets/img/logo.png") = Some ("img/logo.png" : jstr).
Proof.
  apply (assets_prefix_repeated exampleProcess "main" "/assets/img/logo.png" "img/logo.png").
  reflexivity.
Defined.

(** X6.  Any host, mapped or not, serves an ordinary path put after [/assets/]
    from the shared assets directory. *)
Theorem assets_path_served (proc : Process) (m h : jstr) (rest : list jstr) :
  Path.isAbsolute (resourcesPath proc) = true ->
  ordinary rest ->
  exists root,
    assetsRoot proc = Ok (JString root)
    /\ handleYTMDAppProtocol proc
         {| method := m; host := h; pathname := "/assets/" ++ join rest |}
       = ([requestLog {| method := m; host := h; pathname := "/assets/" ++ join rest |};
           inferenceLog (pathToFileURL (root ++ "/" ++ join rest));
           NetFetch (pathToFileURL (root ++ "/" ++ join rest))],
          Ok (Fetched (pathToFileURL (root ++ "/" ++ join rest)))).
Proof.
  intros Hrp Ho.
  pose proof (assetsRoot_resolved proc Hrp) as Hroot.
  pose proof (assetsSegs_good proc) as Hg.
  assert (Hne : assetsSegs proc <> [])
    by (unfold assetsSegs; intros E; apply app_eq_nil in E as [_ E]; discriminate E).
  destruct (ordinary_facts rest Ho) as (Hr & Hgr & _ & Hsk & Hag).
  destruct (ordinary_below proc _ rest Hne Hg Ho) as [Hs Hres].
  pose proof (assetsRegex_one (join rest) Hsk Hag) as Hre.
  exists ("/" ++ join (assetsSegs proc)). split; [exact Hroot|].
  rewrite (handle_resolved proc _ (JString ("/" ++ join (assetsSegs proc))) (join rest)).
  - rewrite Hs, Hres. reflexivity.
  - unfold resolveRequest. cbn [host pathname].
    destruct (rootOfHost_ok proc h) as [v0 ->]. cbn [bind].
    destruct (rewritePath_assets proc v0 ("/assets/" ++ join rest) (join rest))
      as (r & Hr' & ->); [rewrite (assetsRegex_not_root _ _ Hre); exact Hre|].
    unfold Regex.leadingSeps_strip. rewrite Hsk. congruence.
Qed.

Lemma assets_path_served_witness :
  exists root,
    assetsRoot exampleProcess = Ok (JString root)
    /\ handleYTMDAppProtocol exampleProcess
         {| method := "GET"; host := "bogus";
            pathname := "/assets/" ++ join ["css" : jstr; "app.css" : jstr] |}
       = ([requestLog {| method := "GET"; host := "bogus";
                         pathname := "/assets/" ++ join ["css" : jstr; "app.css" : jstr] |};
           inferenceLog (pathToFileURL
                           (root ++ "/" ++ join ["css" : jstr; "app.css" : jstr]));
           NetFetch (pathToFileURL
                       (root ++ "/" ++ join ["css" : jstr; "app.css" : jstr]))],
          Ok (Fetched (pathToFileURL
                         (root ++ "/" ++ join ["css" : jstr; "app.css" : jstr])))).
Proof.
  apply (assets_path_served exampleProcess "GET" "bogus" ["css" : jstr; "app.css" : jstr]);
    [reflexivity|exact ordinary_example].
Defined.

(** X9.  The path the router hands to the guard never begins with a separator,
    so it is never an absolute path; after the assets prefix it does not
    begin with another [assets] group either. *)
Theorem guard_candidate_shape (proc : Process) (h p : jstr) :
  exists root d,
    resolveRequest proc h p = Ok (root, d)
    /\ Regex.skip_seps d = d
    /\ Path.isAbsolute d = false
    /\ (Regex.assetsRegex_test (indexDefault p) = true ->
        Regex.assets_group d = None).
Proof.
  unfold resolveRequest. destruct (rootOfHost_ok proc h) as [v0 ->]. cbn [bind].
  unfold Regex.assetsRegex_test.
  destruct (Regex.assetsRegex (indexDefault p)) as [rest|] eqn:Ea.
  - destruct (rewritePath_assets proc v0 p rest Ea) as (r & _ & ->).
    destruct (assetsRegex_exhaustive _ _ Ea) as [Hg Hs].
    exists (JString r), (Regex.leadingSeps_strip rest). rewrite Hs.
    split; [reflexivity|]. split; [exact Hs|].
    split; [rewrite <- Hs; apply skip_seps_relative|intros _; exact Hg].
  - rewrite rewritePath_plain by exact Ea.
    exists v0, (Regex.leadingSeps_strip (indexDefault p)).
    repeat split; [apply skip_seps_idem|apply skip_seps_relative|discriminate].
Qed.

(** ** The dispatcher: splitting the URI *)

Lemma split_go_none (sep s : jstr) : forall cur,
  ~ occurs sep s -> JS.split_go sep O cur s = [cur ++ s].
Proof.
  induction s as [|c s IH]; intros cur Hno.
  - rewrite app_nil_r. reflexivity.
  - destruct (JS.startsWith (c :: s) sep) eqn:E.
    + exfalso. apply Hno. apply startsWith_inv in E as [t Et].
      exists [], t. exact Et.
    + rewrite split_go_char by exact E. rewrite IH.
      * rewrite <- app_assoc. reflexivity.
      * intros (a & b & Eab). apply Hno. exists (c :: a), b. rewrite Eab. reflexivity.
Qed.

Lemma not_in_not_occurs (c : ascii) (sep' s : jstr) :
  ~ In c s -> ~ occurs (c :: sep') s.
Proof.
  intros Hc (a & b & E). apply Hc. rewrite E.
  apply in_or_app; right; left; reflexivity.
Qed.

Lemma split_single (c : ascii) (sep' s : jstr) :
  ~ In c s -> JS.split s (c :: sep') = [s].
Proof.
  intros Hc. unfold JS.split.
  rewrite split_go_none by (apply not_in_not_occurs; exact Hc). reflexivity.
Qed.

(** Splitting on ["/"] undoes joining with ["/"]. *)
Lemma split_join (segs : list jstr) :
  segs <> [] -> Forall (fun w => ~ In "/"%char w) segs ->
  JS.split (join segs) "/" = segs.
Proof.
  intros Hne Hs. unfold JS.split.
  induction segs as [|a rest IH]; [contradiction|].
  inversion Hs as [|? ? Ha Hr]; subst.
  destruct rest as [|b rest'].
  - cbn [join]. apply (split_single "/" [] a Ha).
  - change (join (a :: b :: rest')) with (a ++ "/" ++ join (b :: rest')).
    change (list_ascii_of_string "/") with ["/"%char].
    rewrite (split_go_piece "/" [] a [] (join (b :: rest')) Ha).
    cbn [app]. f_equal. apply IH; [discriminate|exact Hr].
Qed.

Lemma in_join (c : ascii) (segs : list jstr) :
  In c (join segs) -> c = "/"%char \/ exists w, In w segs /\ In c w.
Proof.
  induction segs as [|a rest IH]; [intros []|].
  destruct rest as [|b rest'].
  - cbn [join]. intros H. right. exists a. split; [left; reflexivity|exact H].
  - change (join (a :: b :: rest')) with (a ++ "/" ++ join (b :: rest')).
    intros H. apply in_app_or in H as [H|[H|H]].
    + right. exists a. split; [left; reflexivity|exact H].
    + left. symmetry; exact H.
    + destruct (IH H) as [E|(w & Hw & Hc)]; [left; exact E|].
      right. exists w. split; [right; exact Hw|exact Hc].
Qed.

(** A URI with a scheme free of colons and a remainder free of colons
    splits in two. *)
Lemma split_uri (sch remainder : jstr) :
  ~ In ":"%char sch -> ~ In ":"%char remainder ->
  JS.split (sch ++ "://" ++ remainder) "://" = [sch; remainder].
Proof.
  intros Hs Hr. rewrite split_scheme by exact Hs.
  change (list_ascii_of_string "://") with (":"%char :: ["/"; "/"]%char).
  rewrite split_single by exact Hr. reflexivity.
Qed.

Lemma colon_free_join (segs : list jstr) :
  Forall (fun w => ~ In "/"%char w /\ ~ In ":"%char w) segs ->
  ~ In ":"%char (join segs) /\ Forall (fun w => ~ In "/"%char w) segs.
Proof.
  intros H. split.
  - intros Hin. apply in_join in Hin as [E|(w & Hw & Hc)]; [discriminate E|].
    rewrite Forall_forall in H. destruct (H w Hw) as [_ Hn]. exact (Hn Hc).
  - eapply Forall_impl; [|exact H]. intros a [Ha _]. exact Ha.
Qed.

(** ** The dispatcher: what it sends *)

(** X11.  A URI without ["://"] is ignored: the dispatcher only writes its first
    log line. *)
Theorem no_separator_no_command (vm : YTMViewManager) (url : jstr) :
  ~ occurs "://" url ->
  handleYTMDProtocol vm url = ([handlingLog url], Ok tt).
Proof.
  intros Hno. unfold handleYTMDProtocol, JS.split.
  rewrite split_go_none by exact Hno. reflexivity.
Qed.

Lemma no_separator_no_command_witness :
  handleYTMDProtocol {| isInitialized := true |} "play/abc123"
  = ([handlingLog "play/abc123"], Ok tt).
Proof.
  apply (no_separator_no_command {| isInitialized := true |} "play/abc123").
  apply (not_in_not_occurs ":" ["/"; "/"]%char). apply not_in_existsb. reflexivity.
Defined.

(** X10.  Parsing undoes formatting: with the view initialized, the link
    [<scheme>://play/<videoId>] followed by any further segments sends
    exactly one command, whose [videoId] is the second segment and whose
    [playlistId] is the third one, or undefined when there is none.  The
    ids may be empty, and segments after the third are ignored. *)
Theorem play_link_round_trip (sch vid : jstr) (more : list jstr) :
  ~ In ":"%char sch ->
  Forall (fun w => ~ In "/"%char w /\ ~ In ":"%char w) (vid :: more) ->
  let url := sch ++ "://" ++ join (("play" : jstr) :: vid :: more) in
  let w := {| videoId := JString vid; playlistId := index more 0%nat |} in
  handleYTMDProtocol {| isInitialized := true |} url
  = ([handlingLog url; navigatingLog w; AwaitReady; navigate w], Ok tt).
Proof.
  intros Hs Hsegs url w.
  assert (Hall : Forall (fun w => ~ In "/"%char w /\ ~ In ":"%char w)
                   (("play" : jstr) :: vid :: more)).
  { apply Forall_cons; [|exact Hsegs]. split; apply not_in_existsb; reflexivity. }
  destruct (colon_free_join _ Hall) as [Hc Hsl].
  assert (Ht : truthy (JString (join (("play" : jstr) :: vid :: more))) = true)
    by reflexivity.
  assert (H0 : (0 <? alength (("play" : jstr) :: vid :: more)) = true)
    by (apply Z.ltb_lt; unfold alength; cbn [List.length]; lia).
  assert (H2 : (2 <=? alength (("play" : jstr) :: vid :: more)) = true)
    by (apply Z.leb_le; unfold alength; cbn [List.length]; lia).
  unfold handleYTMDProtocol. subst url.
  rewrite (split_uri sch _ Hs Hc). cbn [index nth_error].
  rewrite Ht, split_join by (discriminate || exact Hsl).
  rewrite H0, H2. reflexivity.
Qed.

Lemma play_link_round_trip_witness :
  handleYTMDProtocol {| isInitialized := true |}
    ("ytmd" ++ "://" ++ join (("play" : jstr) :: ("dQw4" : jstr) :: [("PL9" : jstr)]))
  = ([handlingLog
        ("ytmd" ++ "://" ++ join (("play" : jstr) :: ("dQw4" : jstr) :: [("PL9" : jstr)]));
      navigatingLog {| videoId := JString "dQw4"; playlistId := index [("PL9" : jstr)] 0%nat |};
      AwaitReady;
      navigate {| videoId := JString "dQw4"; playlistId := index [("PL9" : jstr)] 0%nat |}],
     Ok tt).
Proof.
  apply (play_link_round_trip "ytmd" "dQw4" [("PL9" : jstr)]).
  - apply not_in_existsb. reflexivity.
  - repeat (apply Forall_cons; [split; apply not_in_existsb; reflexivity|]).
    apply Forall_nil.
Defined.

(** X12.  A link whose first segment is not exactly [play], or that has no
    segment after [play], sends nothing, whatever the state of the view:
    the dispatcher only writes its first log line. *)
Theorem other_links_ignored (vm : YTMViewManager) (sch verb : jstr) (more : list jstr) :
  ~ In ":"%char sch ->
  Forall (fun w => ~ In "/"%char w /\ ~ In ":"%char w) (verb :: more) ->
  verb <> "play" \/ more = [] ->
  handleYTMDProtocol vm (sch ++ "://" ++ join (verb :: more))
  = ([handlingLog (sch ++ "://" ++ join (verb :: more))], Ok tt).
Proof.
  intros Hs Hsegs Hwhy.
  destruct (colon_free_join _ Hsegs) as [Hc Hsl].
  unfold handleYTMDProtocol.
  rewrite (split_uri sch _ Hs Hc). cbn [index nth_error].
  destruct (truthy (JString (join (verb :: more)))); [|reflexivity].
  rewrite split_join by (discriminate || exact Hsl).
  destruct (0 <? alength (verb :: more)); [|reflexivity].
  cbn [index nth_error value_is].
  destruct (JS.str_eqb verb "play") eqn:Ev; [|reflexivity].
  apply str_eqb_eq in Ev.
  destruct Hwhy as [Hv| ->]; [contradiction|]. reflexivity.
Qed.

Lemma other_links_ignored_witness :
  handleYTMDProtocol {| isInitialized := true |}
    ("ytmd" ++ "://" ++ join [("pause" : jstr); ("abc123" : jstr)])
  = ([handlingLog ("ytmd" ++ "://" ++ join [("pause" : jstr); ("abc123" : jstr)])], Ok tt).
Proof.
  apply (other_links_ignored {| isInitialized := true |} "ytmd" "pause" [("abc123" : jstr)]).
  - apply not_in_existsb. reflexivity.
  - repeat (apply Forall_cons; [split; apply not_in_existsb; reflexivity|]).
    apply Forall_nil.
  - left. discriminate.
Defined.

(** X13.  The dispatcher sends at most one command per link, only to an
    initialized view, and the command always carries a string for
    [videoId]; [playlistId] is a string or undefined. *)
Theorem command_well_formed (vm : YTMViewManager) (url : jstr) (w : WatchEndpoint) :
  In w (sent (trace (handleYTMDProtocol vm url))) ->
  sent (trace (handleYTMDProtocol vm url)) = [w]
  /\ isInitialized vm = true
  /\ (exists v, videoId w = JString v)
  /\ (playlistId w = JUndefined \/ exists p, playlistId w = JString p).
Proof.
  destruct (handleYTMDProtocol_cases vm url)
    as [(paths & (r & _ & _ & _ & _ & Hlen) & Hi & ->)|[_ ->]];
    cbn [trace fst sent flat_map app handlingLog navigatingLog navigate];
    [|intros []].
  intros [<-|[]]. split; [reflexivity|]. split; [exact Hi|].
  unfold commandOf, index. cbn [videoId playlistId].
  destruct paths as [|p0 [|p1 ps]]; try (unfold alength in Hlen; cbn in Hlen; lia).
  split; [exists p1; reflexivity|].
  destruct ps as [|p2 ps']; [left; reflexivity|right; exists p2; reflexivity].
Qed.

Lemma command_well_formed_witness :
  sent (trace (handleYTMDProtocol {| isInitialized := true |} "ytmd://play/x"))
  = [{| videoId := JString "x"; playlistId := JUndefined |}].
Proof.
  apply (command_well_formed {| isInitialized := true |} "ytmd://play/x").
  left. reflexivity.
Defined.

Lemma sent_same_remainder (vm : YTMViewManager) (u1 u2 : jstr) :
  index (JS.split u1 "://") 1%nat = index (JS.split u2 "://") 1%nat ->
  sent (trace (handleYTMDProtocol vm u1)) = sent (trace (handleYTMDProtocol vm u2)).
Proof.
  intros H. unfold handleYTMDProtocol. rewrite H.
  destruct (index (JS.split u2 "://") 1%nat) as [|rem|b]; try reflexivity.
  destruct (truthy (JString rem)); [|reflexivity].
  destruct (0 <? alength (JS.split rem "/")); [|reflexivity].
  destruct (value_is _ _); [|reflexivity].
  destruct (2 <=? alength (JS.split rem "/")); [|reflexivity].
  destruct (isInitialized vm); reflexivity.
Qed.

(** X14.  Only the text between the first and the second ["://"] counts: what
    follows a second ["://"] changes nothing to what is sent. *)
Theorem second_separator_ignored (vm : YTMViewManager) (sch remainder junk : jstr) :
  ~ In ":"%char sch -> ~ In ":"%char remainder ->
  sent (trace (handleYTMDProtocol vm (sch ++ "://" ++ remainder ++ "://" ++ junk)))
  = sent (trace (handleYTMDProtocol vm (sch ++ "://" ++ remainder))).
Proof.
  intros Hs Hr. apply sent_same_remainder.
  rewrite (split_uri sch remainder Hs Hr).
  rewrite (split_scheme sch (remainder ++ "://" ++ junk) Hs).
  rewrite (split_scheme remainder junk Hr). reflexivity.
Qed.

Lemma second_separator_ignored_witness :
  sent (trace (handleYTMDProtocol {| isInitialized := true |}
                 ("ytmd" ++ "://" ++ "play/a" ++ "://" ++ "play/b/c")))
  = sent (trace (handleYTMDProtocol {| isInitialized := true |}
                   ("ytmd" ++ "://" ++ "play/a"))).
Proof.
  apply (second_separator_ignored {| isInitialized := true |} "ytmd" "play/a" "play/b/c");
    apply not_in_existsb; reflexivity.
Defined.

(** ** The lifecycle hooks *)

Lemma index_in_bounds (a : list jstr) (i : nat) :
  Z.of_nat i < alength a -> exists s, nth_error a i = Some s /\ index a i = JString s.
Proof.
  intros H. unfold index, alength in *.
  destruct (nth_error a i) as [s|] eqn:E; [exists s; split; reflexivity|].
  apply nth_error_None in E. lia.
Qed.

(** With an absolute working directory [path.resolve] returns an absolute
    path. *)
Lemma resolve_one_absolute (cwd0 x r : jstr) :
  Path.isAbsolute cwd0 = true ->
  Path.resolve cwd0 [JString x] = Ok r -> Path.isAbsolute r = true.
Proof.
  intros Hc. unfold Path.resolve.
  cbn [rev app Path.resolve_loop Path.validateString bind].
  destruct x as [|c x'].
  - destruct cwd0 as [|d cwd']; [discriminate|]. rewrite Hc. cbn [bind].
    intros H; injection H as <-. reflexivity.
  - destruct (Path.isAbsolute (c :: x')).
    + cbn [bind]. intros H; injection H as <-. reflexivity.
    + cbn [Path.resolve_loop]. destruct cwd0 as [|d cwd']; [discriminate|].
      rewrite Hc. cbn [bind]. intros H; injection H as <-. reflexivity.
Qed.

(** X15.  Initialization happens once.  On a fresh instance [onInitialized]
    completes, sets the flag and installs exactly one handler, for the
    scheme that [onPreInitialized] registers as standard and secure; from
    then on every call throws the "already initialized" error without
    making any call and without changing the instance. *)
Theorem initialization_one_shot (proc : Process) (h : Host) (this : ProtocolManager) :
  initialized this = false ->
  exists this' calls,
    onInitialized proc h this = Completed this' calls
    /\ initialized this' = true
    /\ handlerCalls calls = [("ytmd-app" : jstr)]
    /\ (exists cs,
          callsOf (onPreInitialized this) = [RegisterSchemesAsPrivileged [cs]]
          /\ stateAfter (onPreInitialized this) = this
          /\ handlerCalls calls = [scheme cs]
          /\ standard (privileges cs) = true /\ secure (privileges cs) = true)
    /\ (forall proc' h',
          onInitialized proc' h' this'
          = Thrown this' [] (JsError "ProtocolManager is already initialized!")).
Proof.
  unfold initialized. intros Hi. unfold onInitialized at 1. rewrite Hi.
  assert (Hthrow : forall proc' h',
             onInitialized proc' h' {| _initialized := true |}
             = Thrown {| _initialized := true |} []
                 (JsError "ProtocolManager is already initialized!"))
    by reflexivity.
  assert (Hpre : exists cs,
             callsOf (onPreInitialized this) = [RegisterSchemesAsPrivileged [cs]]
             /\ stateAfter (onPreInitialized this) = this
             /\ [("ytmd-app" : jstr)] = [scheme cs]
             /\ standard (privileges cs) = true /\ secure (privileges cs) = true)
    by (eexists; repeat split).
  destruct (negb (isDefaultProtocolClient h "ytmd")).
  2:{ eexists _, _. split; [reflexivity|]. repeat split; assumption. }
  destruct (defaultApp h).
  2:{ eexists _, _. split; [reflexivity|]. repeat split; assumption. }
  destruct (Z.leb_spec 2 (alength (argv h))) as [Hlen|Hlen].
  2:{ eexists _, _. split; [reflexivity|]. repeat split; assumption. }
  destruct (index_in_bounds (argv h) 1 ltac:(cbn; lia)) as (script & _ & ->).
  destruct (resolve_strings (cwd proc) [script]) as [resolved Hres].
  cbn [map] in Hres. rewrite Hres.
  eexists _, _. split; [reflexivity|]. repeat split; assumption.
Qed.

Lemma initialization_one_shot_witness :
  exists this' calls,
    onInitialized exampleProcess exampleHost {| _initialized := false |}
    = Completed this' calls
    /\ initialized this' = true
    /\ handlerCalls calls = [("ytmd-app" : jstr)]
    /\ (exists cs,
          callsOf (onPreInitialized {| _initialized := false |})
          = [RegisterSchemesAsPrivileged [cs]]
          /\ stateAfter (onPreInitialized {| _initialized := false |})
             = {| _initialized := false |}
          /\ handlerCalls calls = [scheme cs]
          /\ standard (privileges cs) = true /\ secure (privileges cs) = true)
    /\ (forall proc' h',
          onInitialized proc' h' this'
          = Thrown this' [] (JsError "ProtocolManager is already initialized!")).
Proof.
  apply (initialization_one_shot exampleProcess exampleHost {| _initialized := false |}).
  reflexivity.
Defined.

(** X16.  [onInitialized] asks to become the default client of [ytmd] at most
    once, and not at all when the application already is the default
    client or runs as the default app without a script argument.  The
    request names the protocol [ytmd] and the executable; as the default
    app it passes one argument, the absolute path [argv[1]] resolves to,
    and otherwise none. *)
Theorem default_client_registration (proc : Process) (h : Host) (this : ProtocolManager) :
  initialized this = false ->
  Path.isAbsolute (cwd proc) = true ->
  completes (onInitialized proc h this) = true
  /\ (defaultClientCalls (callsOf (onInitialized proc h this)) = []
      <-> isDefaultProtocolClient h "ytmd" = true
          \/ (defaultApp h = true /\ alength (argv h) < 2))
  /\ (forall c, In c (defaultClientCalls (callsOf (onInitialized proc h this))) ->
        defaultClientCalls (callsOf (onInitialized proc h this)) = [c]
        /\ exists args,
             c = SetAsDefaultProtocolClient "ytmd" (execPath h) args
             /\ (defaultApp h = false -> args = None)
             /\ (defaultApp h = true ->
                 exists script resolved,
                   nth_error (argv h) 1 = Some script
                   /\ Path.resolve (cwd proc) [JString script] = Ok resolved
                   /\ args = Some [resolved]
                   /\ Path.isAbsolute resolved = true)).
Proof.
  unfold initialized. intros Hi Hcwd. unfold onInitialized. rewrite Hi.
  destruct (isDefaultProtocolClient h "ytmd") eqn:Ed; cbn [negb].
  { cbn. split; [reflexivity|]. split; [split; auto|intros c []]. }
  destruct (defaultApp h) eqn:Ea.
  - destruct (Z.leb_spec 2 (alength (argv h))) as [Hlen|Hlen].
    + destruct (index_in_bounds (argv h) 1 ltac:(cbn; lia)) as (script & Hn & ->).
      destruct (resolve_strings (cwd proc) [script]) as [resolved Hres].
      cbn [map] in Hres. rewrite Hres. cbn.
      split; [reflexivity|]. split.
      * split; [discriminate|]. intros [H|[_ H]]; [discriminate H|lia].
      * intros c [<-|[]]. split; [reflexivity|].
        exists (Some [resolved]). split; [reflexivity|]. split; [discriminate|].
        intros _. exists script, resolved. repeat split; try assumption.
        exact (resolve_one_absolute _ _ _ Hcwd Hres).
    + cbn. split; [reflexivity|]. split; [split; auto|intros c []].
  - cbn. split; [reflexivity|]. split.
    + split; [discriminate|]. intros [H|[H _]]; discriminate H.
    + intros c [<-|[]]. split; [reflexivity|].
      exists None. split; [reflexivity|]. split; [reflexivity|discriminate].
Qed.

Lemma default_client_registration_witness :
  completes (onInitialized exampleProcess exampleHost {| _initialized := false |}) = true.
Proof.
  apply (default_client_registration exampleProcess exampleHost {| _initialized := false |});
    reflexivity.
Defined.

(** ** The guard, exactly *)

(** The guard on a candidate that resolves below the root. *)
Lemma isSafePath_below (proc : Process) (r c : jstr) (rest : list jstr) :
  Path.isAbsolute r = true ->
  Path.resolve (cwd proc) [JString r; JString c]
  = Ok ("/" ++ join (normalize_segs r ++ rest)) ->
  rest <> [] -> Forall good rest ->
  isSafePath proc (JString r) c = Ok (verdict (join rest)).
Proof.
  intros Hr Hres Hne Hg.
  pose proof (normalize_segs_good r) as Hfs.
  assert (Hts : Forall good (normalize_segs r ++ rest))
    by (apply Forall_app; split; assumption).
  rewrite isSafePath_unfold, Hres. cbn [bind].
  rewrite relative_of_resolved by assumption.
  destruct (JS.str_eqb r _) eqn:E1.
  { exfalso. apply str_eqb_eq in E1.
    apply (app_neq_self (normalize_segs r) rest Hne).
    rewrite E1 at 2. rewrite normalize_segs_join by exact Hts. reflexivity. }
  destruct (JS.str_eqb ("/" ++ join (normalize_segs r)) _) eqn:E2.
  { exfalso. apply str_eqb_eq in E2.
    apply (app_neq_self (normalize_segs r) rest Hne).
    rewrite <- (normalize_segs_join (normalize_segs r ++ rest)) by exact Hts.
    rewrite <- E2. apply normalize_segs_join. exact Hfs. }
  cbn [bind]. rewrite relative_resolved_inside by assumption. reflexivity.
Qed.

Lemma verdict_join (rest : list jstr) :
  rest <> [] -> Forall good rest ->
  truthy (verdict (join rest)) = negb (JS.startsWith (join rest) "..").
Proof.
  intros Hne Hg. destruct (join_head_not_slash rest Hg Hne) as (x & J & E & Hx).
  unfold verdict. rewrite E. cbn [JS.truthy_str truthy Path.isAbsolute].
  unfold Path.CHAR_FORWARD_SLASH.
  destruct (Ascii.eqb_spec x "/"); [contradiction|].
  cbn [negb]. rewrite andb_true_r. reflexivity.
Qed.

(** X3.  The guard accepts a candidate exactly when the segments of the
    resolved candidate are those of the resolved root followed by at least
    one more, and what was added does not begin with two dots. *)
Theorem guard_exact (proc : Process) (R candidate : jstr) :
  Path.isAbsolute R = true ->
  exists fs ts v,
    Forall good fs /\ Forall good ts
    /\ Path.resolve (cwd proc) [JString R] = Ok ("/" ++ join fs)
    /\ Path.resolve (cwd proc) [JString R; JString candidate] = Ok ("/" ++ join ts)
    /\ isSafePath proc (JString R) candidate = Ok v
    /\ (truthy v = true
        <-> exists rest, rest <> [] /\ ts = fs ++ rest
                         /\ JS.startsWith (join rest) ".." = false).
Proof.
  intros Hr.
  pose proof (normalize_segs_good R) as Hfs.
  destruct (resolve_shape (cwd proc) R candidate Hr) as (ts & Hts & Hres & _).
  destruct (isSafePath_total proc R candidate) as (resolved & rel & _ & _ & Hs).
  exists (normalize_segs R), ts, (verdict rel).
  split; [exact Hfs|]. split; [exact Hts|].
  split; [apply resolve_absolute; exact Hr|]. split; [exact Hres|]. split; [exact Hs|].
  assert (Hdown : forall rest, rest <> [] -> ts = normalize_segs R ++ rest ->
            truthy (verdict rel) = negb (JS.startsWith (join rest) "..")).
  { intros rest Hne E. subst ts. apply Forall_app in Hts as [_ Hg].
    rewrite (isSafePath_below proc R candidate rest Hr Hres Hne Hg) in Hs.
    injection Hs as <-. apply verdict_join; assumption. }
  split.
  - intros Hv.
    destruct (isSafePath_sound proc R candidate _ Hr Hs Hv)
      as (ts' & Hts' & Hres' & _ & Hbelow).
    rewrite Hres in Hres'. injection Hres' as Hj.
    assert (ts' = ts)
      by (rewrite <- (normalize_segs_join ts' Hts'), <- (normalize_segs_join ts Hts);
          f_equal; f_equal; symmetry; exact Hj).
    subst ts'.
    assert (Hex : exists rest, rest <> [] /\ ts = normalize_segs R ++ rest).
    { destruct (normalize_segs R) as [|f fs'] eqn:Ef.
      - exists ts. split; [|reflexivity]. intros ->.
        rewrite isSafePath_unfold, Hres in Hs. cbn [bind] in Hs.
        rewrite relative_of_resolved in Hs by (assumption || constructor).
        rewrite Ef in Hs. rewrite str_eqb_refl in Hs.
        destruct (JS.str_eqb R _); injection Hs as Hs; rewrite <- Hs in Hv;
          discriminate Hv.
      - destruct Hbelow as [E|[J E]];
          [exfalso; revert E; apply join_nonempty; [exact Hfs|discriminate]|].
        destruct (join_extends (f :: fs') ts J) as (rest & E1 & Hne & _);
          [discriminate|exact Hfs|exact Hts|exact E|].
        exists rest. split; assumption. }
    destruct Hex as (rest & Hne & E). exists rest. repeat split; try assumption.
    rewrite (Hdown rest Hne E) in Hv. apply negb_true_iff in Hv. exact Hv.
  - intros (rest & Hne & E & Hdd). rewrite (Hdown rest Hne E), Hdd. reflexivity.
Qed.

Lemma guard_exact_witness :
  exists fs ts v,
    Forall good fs /\ Forall good ts
    /\ Path.resolve (cwd exampleProcess) [JString exampleRoot] = Ok ("/" ++ join fs)
    /\ Path.resolve (cwd exampleProcess) [JString exampleRoot; JString "a/../b.js"]
       = Ok ("/" ++ join ts)
    /\ isSafePath exampleProcess (JString exampleRoot) "a/../b.js" = Ok v
    /\ (truthy v = true
        <-> exists rest, rest <> [] /\ ts = fs ++ rest
                         /\ JS.startsWith (join rest) ".." = false).
Proof.
  apply (guard_exact exampleProcess exampleRoot "a/../b.js"). reflexivity.
Defined.
